(** * Car(); in-memory patch system: a shallow embedding of
      [src/patch/carPatcher.ts] and of the patch routes that call it, and
      the properties of the patch pipeline.

    JavaScript strings are sequences of UTF-16 code units; they are modelled
    as [list N].  The regular expression [CAR_REGEX] (flags [g] and [m]: line
    start, group 1 = [\s*], the token [Car\(\);], [\s*], line end) is modelled
    by a backtracking matcher written out for that pattern, and
    [String.prototype.match] / [String.prototype.replace] by one scan that
    follows the [lastIndex] loop of a global regular expression. *)

From Stdlib Require Import Strings.String Strings.Ascii DecimalNat.
From stdpp Require Import base numbers list sorting gmap.

Local Open Scope N_scope.
Local Open Scope nat_scope.

#[local] Set Warnings "-clear-no-such-hyp".

(** ** JavaScript strings *)

Module JS.

(** A string value: its UTF-16 code units. *)
Definition str : Type := list N.

(** A string literal of the source (code units below 256). *)
Definition lit (s : string) : str :=
  (λ a, N_of_ascii a) <$> list_ascii_of_string s.

(** The line feed, [\n]. *)
Definition LF : N := 10%N.

(** [LineTerminator] of ECMAScript: LF, CR, LS, PS.  With the [m] flag, [^]
    matches after one and [$] before one. *)
Definition is_line_terminator (c : N) : bool :=
  bool_decide (c ∈ [10; 13; 8232; 8233]%N).

(** The class [\s] (and what [trim] strips): [WhiteSpace] and
    [LineTerminator] code units. *)
Definition is_space (c : N) : bool :=
  bool_decide (c ∈ [9; 10; 11; 12; 13; 32; 160; 5760; 8232; 8233; 8239; 8287;
                    12288; 65279]%N)
  || ((8192 <=? c)%N && (c <=? 8202)%N).

(** [s.trim()]. *)
Fixpoint trimStart (s : str) : str :=
  match s with
  | c :: s' => if is_space c then trimStart s' else s
  | [] => []
  end.

Definition trimEnd (s : str) : str := reverse (trimStart (reverse s)).

Definition trim (s : str) : str := trimEnd (trimStart s).

(** Truthiness of a string: every string but the empty one. *)
Definition truthy (s : str) : bool :=
  match s with [] => false | _ :: _ => true end.

(** [s.split('\n')]: never the empty array. *)
Fixpoint split_lf (s : str) : list str :=
  match s with
  | [] => [[]]
  | c :: s' =>
      if (c =? LF)%N then [] :: split_lf s'
      else match split_lf s' with
           | l :: ls => (c :: l) :: ls
           | [] => [[c]]
           end
  end.

(** [a.join('\n')]. *)
Fixpoint join_lf (ls : list str) : str :=
  match ls with
  | [] => []
  | [l] => l
  | l :: ls' => l ++ LF :: join_lf ls'
  end.

(** *** [CAR_REGEX], flags [g] and [m]: [^], group 1 = [\s*], [Car\(\);],
    [\s*], [$] *)

Definition CAR_MARKER : str := lit "Car();".

(** [^] under the [m] flag: at the start of the input or right after a line
    terminator. [prev] is the code unit before the position, if any. *)
Definition at_line_start (prev : option N) : bool :=
  match prev with
  | None => true
  | Some c => is_line_terminator c
  end.

(** The end of the pattern, [\s*$], from a position whose remaining input
    is [s]: the greedy star first takes one more space and tries the rest;
    when that fails it gives back and [$] is tried where it stands (the end
    of the input, or before a line terminator).  The result is the number of
    code units consumed. *)
Fixpoint re_tail (s : str) : option nat :=
  match s with
  | [] => Some 0
  | c :: s' =>
      match (if is_space c then re_tail s' else None) with
      | Some n => Some (S n)
      | None => if is_line_terminator c then Some 0 else None
      end
  end.

(** [s.startsWith(p)], returning what follows [p]. *)
Fixpoint strip_prefix (p s : str) : option str :=
  match p, s with
  | [], _ => Some s
  | a :: p', b :: s' => if (a =? b)%N then strip_prefix p' s' else None
  | _ :: _, [] => None
  end.

(** [Car\(\);\s*$]. *)
Definition re_token (s : str) : option nat :=
  match strip_prefix CAR_MARKER s with
  | Some rest => (λ n, length CAR_MARKER + n) <$> re_tail rest
  | None => None
  end.

(** Group 1 = [\s*], then [Car\(\);\s*$]: the greedy group first takes one
    more space and tries the rest; when that fails it gives back and the
    token is tried where it stands.  The result is the text captured by the
    group and the length of the whole match. *)
Fixpoint re_body (s : str) : option (str * nat) :=
  let stop := (λ n, ([], n)) <$> re_token s in
  match s with
  | c :: s' =>
      match (if is_space c then re_body s' else None) with
      | Some (indent, n) => Some (c :: indent, S n)
      | None => stop
      end
  | [] => stop
  end.

(** One attempt of the whole pattern at a position. *)
Definition re_at (prev : option N) (s : str) : option (str * nat) :=
  if at_line_start prev then re_body s else None.

(** The input cut by the successive matches of the global regular
    expression: a code unit outside every match, or a match with its index,
    the text of group 1 and the matched text. *)
Inductive piece : Type :=
  | Lit (c : N)
  | Hit (index : nat) (indent matched : str).

(** The [lastIndex] loop: attempts are made at every index from left to
    right; after a match of length [n] the next attempt is made [n] code
    units further ([skip] counts the code units of the current match still to
    pass, the pattern never matches the empty string). *)
Fixpoint scan (skip pos : nat) (prev : option N) (s : str) : list piece :=
  match s with
  | [] => []
  | c :: s' =>
      match skip with
      | S k => scan k (S pos) (Some c) s'
      | O =>
          match re_at prev s with
          | Some (indent, n) =>
              Hit pos indent (take n s) :: scan (n - 1) (S pos) (Some c) s'
          | None => Lit c :: scan 0 (S pos) (Some c) s'
          end
      end
  end.

Definition pieces (s : str) : list piece := scan 0 0 None s.

(** The matched texts, in order. *)
Definition matched_texts (ps : list piece) : list str :=
  omap (λ p, match p with Hit _ _ m => Some m | Lit _ => None end) ps.

(** [s.match(re)] for the global pattern: [null] when nothing matches. *)
Definition match_all (s : str) : option (list str) :=
  match matched_texts (pieces s) with
  | [] => None
  | ms => Some ms
  end.

(** [s.replace(re, f)] for the global pattern, with a replacement function
    [f] that reads and writes variables of its closure (the state [St]):
    [f] is called on the matches from left to right, and the text between
    matches is copied. *)
Fixpoint replace_pieces {St : Type} (f : str → str → St → str * St)
    (ps : list piece) (st : St) : str * St :=
  match ps with
  | [] => ([], st)
  | Lit c :: ps' =>
      let '(out, st') := replace_pieces f ps' st in (c :: out, st')
  | Hit _ indent m :: ps' =>
      let '(r, st1) := f m indent st in
      let '(out, st2) := replace_pieces f ps' st1 in
      (r ++ out, st2)
  end.

Definition replace {St : Type} (f : str → str → St → str * St)
    (s : str) (st : St) : str * St :=
  replace_pieces f (pieces s) st.

End JS.

Import JS.

(** ** Randomness and exceptions *)

Module Random.

(** The two random sources of the program, [crypto.randomBytes] and
    [Math.random], as two streams with a read position each.  A draw of
    [Math.random] is kept as its 53-bit numerator [m], the value being
    [m / 2^53]; the rounding of floating-point products is not modelled. *)
Record source : Type := Source {
  bytes : nat → N;
  bytes_read : nat;
  numerators : nat → N;
  numerators_read : nat
}.

Definition next_bytes (k : nat) (r : source) : list N * source :=
  ((λ i, (bytes r (bytes_read r + i) mod 256)%N) <$> seq 0 k,
   Source (bytes r) (bytes_read r + k) (numerators r) (numerators_read r)).

(** [Math.floor(Math.random() * n)]. *)
Definition next_floor (n : nat) (r : source) : nat * source :=
  (N.to_nat ((numerators r (numerators_read r) mod 2 ^ 53) * N.of_nat n
             / 2 ^ 53)%N,
   Source (bytes r) (bytes_read r) (numerators r) (S (numerators_read r))).

End Random.

(** The outcome of a call: a value, or a thrown [Error] (its message). *)
Inductive completion (A : Type) : Type :=
  | Normal (a : A)
  | Throw (message : str).
Arguments Normal {A} a.
Arguments Throw {A} message.

(** Computations that draw random values and may throw. *)
Definition M (A : Type) : Type := Random.source → completion A * Random.source.

#[global] Instance M_ret : MRet M := λ A a r, (Normal a, r).

#[global] Instance M_bind : MBind M := λ A B f m r,
  match m r with
  | (Normal a, r') => f a r'
  | (Throw e, r') => (Throw e, r')
  end.

Definition throw {A : Type} (message : str) : M A := λ r, (Throw message, r).

(** [try { body } catch (error) { handler (error.message) }]. *)
Definition try_catch {A : Type} (body : M A) (handler : str → M A) : M A :=
  λ r, match body r with
       | (Normal a, r') => (Normal a, r')
       | (Throw e, r') => handler e r'
       end.

(** [randomBytes(k)]. *)
Definition randomBytes (k : nat) : M (list N) :=
  λ r, let '(bs, r') := Random.next_bytes k r in (Normal bs, r').

(** [Math.floor(Math.random() * n)]. *)
Definition random_floor (n : nat) : M nat :=
  λ r, let '(j, r') := Random.next_floor n r in (Normal j, r').

(** ** Thrown values and promises *)

(** A value that JavaScript code has thrown, or has rejected a promise
    with.  The program does one thing with such a value: it reads its
    [message] into a template literal.  Values are told apart by what that
    gives. *)
Inductive thrown : Type :=
  | Error (message : str)
      (* an Error with that message, or another value, neither null nor
         undefined, whose message reads so in a template literal (a value
         without a message reads as the text undefined) *)
  | Null
  | Undefined
  | Faulty (raised : thrown).
      (* a value whose message cannot be read or turned into a string: the
         attempt throws [raised] *)

(** The text of [(error as Error).message] in a template literal, or the
    value that the attempt to read it throws: a [TypeError] on [null] and on
    [undefined]. *)
Definition messageOf (error : thrown) : str + thrown :=
  match error with
  | Error message => inl message
  | Null =>
      inr (Error (lit "Cannot read properties of null (reading 'message')"))
  | Undefined =>
      inr (Error
             (lit "Cannot read properties of undefined (reading 'message')"))
  | Faulty raised => inr raised
  end.

(** How a promise ends: it is fulfilled with a value, it is rejected with a
    value, or it never settles. *)
Inductive settlement (A : Type) : Type :=
  | Fulfilled (a : A)
  | Rejected (reason : thrown)
  | Pending.
Arguments Fulfilled {A} a.
Arguments Rejected {A} reason.
Arguments Pending {A}.

(** The calls of [async] functions: computations that draw random values
    and end as a promise does. *)
Definition Async (A : Type) : Type :=
  Random.source → settlement A * Random.source.

#[global] Instance Async_ret : MRet Async := λ A a r, (Fulfilled a, r).

#[global] Instance Async_bind : MBind Async := λ A B f m r,
  match m r with
  | (Fulfilled a, r') => f a r'
  | (Rejected e, r') => (Rejected e, r')
  | (Pending, r') => (Pending, r')
  end.

(** [throw error] in an [async] function. *)
Definition reject {A : Type} (error : thrown) : Async A :=
  λ r, (Rejected error, r).

(** [try { body } catch (error) { handler error }] around awaited calls: a
    call that never settles is never caught. *)
Definition try_await {A : Type} (body : Async A) (handler : thrown → Async A)
    : Async A :=
  λ r, match body r with
       | (Fulfilled a, r') => (Fulfilled a, r')
       | (Rejected e, r') => handler e r'
       | (Pending, r') => (Pending, r')
       end.

(** [await] of a call that returns or throws an [Error]. *)
Definition await {A : Type} (call : M A) : Async A :=
  λ r, match call r with
       | (Normal a, r') => (Fulfilled a, r')
       | (Throw message, r') => (Rejected (Error message), r')
       end.

(** [(error as Error).message] read into a template literal. *)
Definition readMessage (error : thrown) : Async str :=
  λ r, match messageOf error with
       | inl message => (Fulfilled message, r)
       | inr raised => (Rejected raised, r)
       end.

(** ** Text of numbers and bytes *)

(** A hexadecimal digit, lower case. *)
Definition hex_digit (d : N) : N :=
  if (d <? 10)%N then (48 + d)%N else (87 + d)%N.

(** [buffer.toString('hex')]. *)
Definition toHex (bs : list N) : str :=
  bs ≫= λ b, [hex_digit (b / 16)%N; hex_digit (b mod 16)%N].

Fixpoint uint_units (d : Decimal.uint) : str :=
  match d with
  | Decimal.Nil => []
  | Decimal.D0 d => 48%N :: uint_units d
  | Decimal.D1 d => 49%N :: uint_units d
  | Decimal.D2 d => 50%N :: uint_units d
  | Decimal.D3 d => 51%N :: uint_units d
  | Decimal.D4 d => 52%N :: uint_units d
  | Decimal.D5 d => 53%N :: uint_units d
  | Decimal.D6 d => 54%N :: uint_units d
  | Decimal.D7 d => 55%N :: uint_units d
  | Decimal.D8 d => 56%N :: uint_units d
  | Decimal.D9 d => 57%N :: uint_units d
  end.

(** The text of a non-negative integer inside a template literal. *)
Definition numberToString (n : nat) : str := uint_units (Nat.to_uint n).

(** The double quote. *)
Definition DQ : N := 34%N.

(** ** The patcher *)

Record PatchConfig : Type := {
  patches : list str;
  randomizeOrder : option bool;
  addFakePatches : option bool;
  preserveOriginal : option bool
}.

(** The test [if (config.flag)] on an optional boolean. *)
Definition enabled (flag : option bool) : bool := default false flag.

Module CarPatcher.

(** [generateFakePatches]: the five templates are instantiated once per
    call, then [count] draws are made among them. *)
Definition fake_templates (h0 h1 h2 : list N) (t : nat) (h4 : list N)
    : list str :=
  [ lit "console.log(" ++ [DQ] ++ lit "Fake patch " ++ toHex h0 ++ [DQ]
      ++ lit ");";
    lit "const fakeVar" ++ toHex h1 ++ lit " = " ++ [DQ] ++ toHex h2 ++ [DQ]
      ++ lit ";";
    lit "if (Math.random() > 0.5) { console.log(" ++ [DQ]
      ++ lit "Fake condition" ++ [DQ] ++ lit "); }";
    lit "setTimeout(() => {}, " ++ numberToString t ++ lit ");";
    lit "const fakeObj = { id: " ++ [DQ] ++ toHex h4 ++ [DQ]
      ++ lit ", value: Math.random() };" ].

(** The loop [for (let i = 0; i < count; i++)], [n] iterations to go. *)
Fixpoint fake_loop (fakePatches : list str) (n : nat) (result : list str)
    : M (list str) :=
  match n with
  | O => mret result
  | S n' =>
      j ← random_floor (length fakePatches);
      let result' :=
        match fakePatches !! j with
        | Some randomPatch =>
            if truthy randomPatch then result ++ [randomPatch] else result
        | None => result
        end in
      fake_loop fakePatches n' result'
  end.

Definition generateFakePatches (count : nat) : M (list str) :=
  h0 ← randomBytes 4;
  h1 ← randomBytes 2;
  h2 ← randomBytes 8;
  t ← random_floor 1000;
  h4 ← randomBytes 4;
  fake_loop (fake_templates h0 h1 h2 t h4) count [].

(** [shuffleArray]: the loop [for (let i = length - 1; i > 0; i--)].  Both
    indices are inside the array (see [shuffle_loop_in_range]); an access
    outside would read [undefined], here the array is then left as it is. *)
Fixpoint shuffle_loop {T : Type} (i : nat) (shuffled : list T) : M (list T) :=
  match i with
  | O => mret shuffled
  | S i' =>
      j ← random_floor (i + 1);
      let shuffled' :=
        match shuffled !! i, shuffled !! j with
        | Some temp, Some other => <[j := temp]> (<[i := other]> shuffled)
        | _, _ => shuffled
        end in
      shuffle_loop i' shuffled'
  end.

Definition shuffleArray {T : Type} (array : list T) : M (list T) :=
  shuffle_loop (length array - 1) array.

(** [// Preserve indentation]: the lines of the patch, each line that is not
    blank with [indent] in front of it. *)
Definition indentPatch (indent patch : str) : str :=
  join_lf ((λ line, if truthy (trim line) then indent ++ line else line)
             <$> split_lf patch).

(** The replacement function of [loadAndPatch]; its closure variable
    [patchesApplied] is the state. *)
Definition replacer (patches : list str) (matched indent : str)
    (patchesApplied : nat) : str * nat :=
  if bool_decide (patchesApplied < length patches) then
    match patches !! patchesApplied with
    | Some patch =>
        if truthy patch then (indentPatch indent patch, S patchesApplied)
        else (matched, patchesApplied)
    | None => (matched, patchesApplied)
    end
  else (matched, patchesApplied).

(** The stage [// Apply patches]. *)
Definition applyPatches (originalContent : str) (patches : list str)
    : str * nat :=
  JS.replace (replacer patches) originalContent 0.

(** The stages [// Prepare patches] and [// Add fake patches if requested]. *)
Definition preparePatches (config : PatchConfig) (markerCount : nat)
    : M (list str) :=
  if enabled (addFakePatches config) then
    fakePatches ← generateFakePatches markerCount;
    mret (patches config ++ fakePatches)
  else mret (patches config).

(** The stage [// Randomize order if requested]. *)
Definition orderPatches (config : PatchConfig) (patches : list str)
    : M (list str) :=
  if enabled (randomizeOrder config) then shuffleArray patches
  else mret patches.

(** [// Count Car(); markers]. *)
Definition countMarkers (originalContent : str) : nat :=
  match match_all originalContent with
  | Some matches => length matches
  | None => 0
  end.

(** [scanMarkers], given the content read: the 1-based numbers of the lines
    that are the marker once trimmed. *)
Definition markerLines (content : str) : list nat :=
  omap (λ '(index, line),
          if bool_decide (trim line = CAR_MARKER) then Some (index + 1) else None)
       (imap (λ index line, (index, line)) (split_lf content)).

Section Host.

(** What the evaluated text can produce, the file store and Node's [vm]. *)
Context {Value : Type}.

Record PatchResult : Type := {
  originalFile : str;
  patchedFile : str;
  patchesApplied : nat;
  executionResult : option Value;
  errors : option (list str)
}.

(** What a sandbox exposes under a name. *)
Inductive handle : Type :=
  | HostConsole | HostSetTimeout | HostSetInterval | HostClearTimeout
  | HostClearInterval | HostBuffer
  | HostProcess  (* { env, cwd, exit } of the host process *)
  | Supplied (v : Value).

(** [fs.promises.readFile(filePath, 'utf-8')]: the content, or the message
    of the error thrown. *)
Variable readFile : str → completion str.

(** What the compilation and the run of a script give: the value of the last
    statement, or a thrown value (a syntax error, an uncaught value, the
    timeout).  A value returned is taken as what awaiting it gives: itself
    when it is not a thenable, and else what the thenable settles to, if it
    settles. *)
Inductive script_result : Type :=
  | Returns (result : settlement Value)
  | Throws (error : thrown).

(** [new vm.Script(code).runInNewContext(sandbox, { timeout })]. *)
Variable runInNewContext : str → gmap str handle → nat → script_result.

Definition defaultSandbox : gmap str handle :=
  list_to_map [ (lit "console", HostConsole);
                (lit "setTimeout", HostSetTimeout);
                (lit "setInterval", HostSetInterval);
                (lit "clearTimeout", HostClearTimeout);
                (lit "clearInterval", HostClearInterval);
                (lit "Buffer", HostBuffer);
                (lit "process", HostProcess) ].

(** [{ console, ..., process: {...}, ...context }]: the entries of
    [context] come last and win. *)
Definition makeSandbox (context : gmap str Value) : gmap str handle :=
  (Supplied <$> context) ∪ defaultSandbox.

Definition loadAndPatch (filePath : str) (config : PatchConfig)
    : M PatchResult :=
  try_catch
    (originalContent ← (λ r, (readFile filePath, r)) : M str;
     let markerCount := countMarkers originalContent in
     if bool_decide (markerCount = 0) then
       mret {| originalFile := originalContent;
               patchedFile := originalContent;
               patchesApplied := 0;
               executionResult := None;
               errors := Some [lit "No Car(); markers found in file"] |}
     else
       patches ← preparePatches config markerCount;
       patches ← orderPatches config patches;
       let '(patchedContent, patchesApplied) :=
         applyPatches originalContent patches in
       mret {| originalFile := originalContent;
               patchedFile := patchedContent;
               patchesApplied := patchesApplied;
               executionResult := None;
               errors := Some [] |})
    (λ message,
       mret {| originalFile := [];
               patchedFile := [];
               patchesApplied := 0;
               executionResult := None;
               errors := Some [lit "Failed to load file: " ++ message] |}).

(** [executePatched]: the script is compiled and run inside the [try]; the
    value it returns leaves the [try] through [return result], with no
    [await], so that a thenable is adopted by the promise of the call after
    the [try] is left: its rejection is not caught, and when it never
    settles the call never settles. *)
Definition executePatched (patchedContent : str) (context : gmap str Value)
    : Async Value :=
  result ←
    try_await
      ((λ r, (match runInNewContext patchedContent (makeSandbox context) 5000
              with
              | Returns result => Fulfilled result
              | Throws error => Rejected error
              end, r)) : Async (settlement Value))
      (λ error,
         message ← readMessage error;
         reject (Error (lit "Execution failed: " ++ message)));
  ((λ r, (result, r)) : Async Value).

(** [patchResult.errors && patchResult.errors.length > 0]. *)
Definition hasErrors (patchResult : PatchResult) : bool :=
  match errors patchResult with
  | Some (_ :: _) => true
  | _ => false
  end.

Definition runWithPatches (filePath : str) (config : PatchConfig)
    (context : gmap str Value) : Async PatchResult :=
  patchResult ← await (loadAndPatch filePath config);
  if hasErrors patchResult then mret patchResult
  else
    try_await
      (result ← executePatched (patchedFile patchResult) context;
       mret {| originalFile := originalFile patchResult;
               patchedFile := patchedFile patchResult;
               patchesApplied := patchesApplied patchResult;
               executionResult := Some result;
               errors := errors patchResult |})
      (λ error,
         message ← readMessage error;
         mret {| originalFile := originalFile patchResult;
                 patchedFile := patchedFile patchResult;
                 patchesApplied := patchesApplied patchResult;
                 executionResult := executionResult patchResult;
                 errors := Some (default [] (errors patchResult)
                                 ++ [lit "Execution error: " ++ message]) |}).

Definition scanMarkers (filePath : str) : M (nat * list nat) :=
  try_catch
    (content ← (λ r, (readFile filePath, r)) : M str;
     let locations := markerLines content in
     mret (length locations, locations))
    (λ message, throw (lit "Scan failed: " ++ message)).

(** [batchProcess]: the loop [for (const filePath of filePaths)] over what
    is left of the list, [results] being the [Map] filled so far. *)
Fixpoint batch_loop (filePaths : list str) (config : PatchConfig)
    (context : gmap str Value) (results : gmap str PatchResult)
    : Async (gmap str PatchResult) :=
  match filePaths with
  | [] => mret results
  | filePath :: rest =>
      results' ←
        try_await
          (result ← runWithPatches filePath config context;
           mret (<[filePath := result]> results))
          (λ error,
             message ← readMessage error;
             mret (<[filePath :=
                      {| originalFile := [];
                         patchedFile := [];
                         patchesApplied := 0;
                         executionResult := None;
                         errors := Some [lit "Batch processing error: "
                                         ++ message] |}]> results));
      batch_loop rest config context results'
  end.

Definition batchProcess (filePaths : list str) (config : PatchConfig)
    (context : gmap str Value) : Async (gmap str PatchResult) :=
  batch_loop filePaths config context ∅.

End Host.

End CarPatcher.

Import CarPatcher.

(** ** The routes of the patch system *)

(** The handler of [POST /patch/scan] as a function of the field it reads
    in the request body, and the summary that the handler of
    [POST /patch/batch] builds from the map of [batchProcess].  A field is
    absent or has the type that the patcher declares for it: [filePath] a
    string, [filePaths] an array of strings. *)
Module Routes.

Section Handlers.

Context {Value : Type}.
Variable readFile : str → completion str.

(** What the handler of the scan hands to [res.json]: an error report, or
    [success: true] with the result spread into it and the timestamp. *)
Inductive body : Type :=
  | Failure (error : str) (message : option str)
  | Scanned (count : nat) (locations : list nat) (timestamp : str).

(** An answer: the status ([res.json] alone answers 200) and the body. *)
Record response : Type := { status : nat; json : body }.

(** [!filePath] fails for a string that is there and not empty. *)
Definition present (field : option str) : bool :=
  match field with
  | Some (_ :: _) => true
  | _ => false
  end.

(** [POST /patch/scan], on the field [filePath] of the request body;
    [now] is [new Date().toISOString()].  What [scanMarkers] throws is an
    [Error], and the three bodies hold strings and numbers only, which
    [res.json] can always encode. *)
Definition patchScan (filePath : option str) (now : str) : M response :=
  try_catch
    (if negb (present filePath) then
       mret {| status := 400;
               json := Failure (lit "Missing required field: filePath")
                               None |}
     else
       scanResult ← scanMarkers readFile (default [] filePath);
       mret {| status := 200;
               json := Scanned scanResult.1 scanResult.2 now |})
    (λ message,
       mret {| status := 500;
               json := Failure (lit "Scan failed") (Some message) |}).

(** [// Convert Map to Object for JSON serialization]: the assignment
    [results[key] = value] gives the object an entry of its own for every
    key but [__proto__], for which it sets the prototype instead. *)
Definition toObject (batchResults : gmap str (PatchResult (Value := Value)))
    : gmap str (PatchResult (Value := Value)) :=
  delete (lit "__proto__") batchResults.

(** [Array.from(batchResults.values())]. *)
Definition values (batchResults : gmap str (PatchResult (Value := Value)))
    : list (PatchResult (Value := Value)) :=
  (map_to_list batchResults).*2.

(** The fields [results] and [summary] of the body that the handler of
    [POST /patch/batch] builds once [batchProcess] has returned the map
    [batchResults] for the array [filePaths]. *)
Record batch_body : Type := {
  results : gmap str (PatchResult (Value := Value));
  total : nat;
  successful : nat;
  failed : nat
}.

Definition batchSummary (filePaths : list str)
    (batchResults : gmap str (PatchResult (Value := Value))) : batch_body :=
  {| results := toObject batchResults;
     total := length filePaths;
     successful := length (filter (λ r, hasErrors r = false)
                             (values batchResults));
     failed := length (filter (λ r, hasErrors r = true)
                         (values batchResults)) |}.

End Handlers.

End Routes.

(** * Vocabulary of the statements *)

(** ** Matches and the cut of a document *)

(** The rest of the input stands at the end of a line. *)
Definition at_line_end (rest : str) : bool :=
  match rest with
  | [] => true
  | c :: _ => is_line_terminator c
  end.

(** The shape of a match: the text of group 1 (spaces), the token, trailing
    spaces; what follows stands at the end of a line. *)
Definition match_shape (s indent : str) (n : nat) : Prop :=
  ∃ trailing rest, s = indent ++ CAR_MARKER ++ trailing ++ rest ∧
    n = length (indent ++ CAR_MARKER ++ trailing) ∧
    Forall (λ c, is_space c = true) indent ∧
    Forall (λ c, is_space c = true) trailing ∧ at_line_end rest = true.

(** The code unit before the position reached after reading [s]. *)
Definition last_unit (prev : option N) (s : str) : option N :=
  match last s with
  | Some c => Some c
  | None => prev
  end.

(** The cut as a relation: from index [pos], with [prev] before it, the
    input [s] is cut into the pieces [ps]. *)
Inductive segments : nat → option N → str → list piece → Prop :=
  | seg_end pos prev : segments pos prev [] []
  | seg_lit pos prev c s ps :
      re_at prev (c :: s) = None →
      segments (S pos) (Some c) s ps →
      segments pos prev (c :: s) (Lit c :: ps)
  | seg_hit pos prev indent trailing rest ps :
      at_line_start prev = true →
      Forall (λ c, is_space c = true) indent →
      Forall (λ c, is_space c = true) trailing →
      at_line_end rest = true →
      segments (pos + length (indent ++ CAR_MARKER ++ trailing))
               (last_unit prev (indent ++ CAR_MARKER ++ trailing)) rest ps →
      segments pos prev ((indent ++ CAR_MARKER ++ trailing) ++ rest)
               (Hit pos indent (indent ++ CAR_MARKER ++ trailing) :: ps).

(** The text a list of pieces was cut from. *)
Fixpoint render (ps : list piece) : str :=
  match ps with
  | [] => []
  | Lit c :: ps' => c :: render ps'
  | Hit _ _ m :: ps' => m ++ render ps'
  end.

(** The markers of a list of pieces: index, group 1, matched text. *)
Definition markers (ps : list piece) : list (nat * str * str) :=
  omap (λ p, match p with
             | Hit index indent m => Some (index, indent, m)
             | Lit _ => None
             end) ps.

(** The position after [s] is the start of a line: [s] is empty or ends with
    a line terminator. *)
Definition ends_line (s : str) : Prop := at_line_start (last s) = true.

(** The document has a line that is the marker: a line, between line
    terminators or the ends of the document, made of the token with nothing
    but spaces around it. *)
Definition marker_line_in (content : str) : Prop :=
  ∃ pre w t rest,
    content = pre ++ w ++ CAR_MARKER ++ t ++ rest ∧
    ends_line pre ∧ at_line_end rest = true ∧
    Forall (λ c, is_space c = true ∧ is_line_terminator c = false) w ∧
    Forall (λ c, is_space c = true ∧ is_line_terminator c = false) t.

(** ** The apply stage *)

(** The fragments that can be written: the plan up to its first empty
    string (an empty string is falsy, the replacement function neither
    writes it nor moves past it). *)
Fixpoint live_prefix (plan : list str) : list str :=
  match plan with
  | p :: rest => if truthy p then p :: live_prefix rest else []
  | [] => []
  end.

(** The expected output: the [i]-th marker, counted from [i], is replaced by
    the [i]-th fragment with the marker's indentation if there is one, and is
    copied otherwise. *)
Fixpoint fill (frags : list str) (i : nat) (ps : list piece) : str :=
  match ps with
  | [] => []
  | Lit c :: ps' => c :: fill frags i ps'
  | Hit _ indent m :: ps' =>
      match frags !! i with
      | Some p => indentPatch indent p
      | None => m
      end ++ fill frags (S i) ps'
  end.

(** ** Random draws *)

(** The source after [k] more draws of [Math.random]. *)
Definition skip_numerators (k : nat) (r : Random.source) : Random.source :=
  Random.Source (Random.bytes r) (Random.bytes_read r)
                (Random.numerators r) (Random.numerators_read r + k).

(** The source after [k] more bytes. *)
Definition skip_bytes (k : nat) (r : Random.source) : Random.source :=
  Random.Source (Random.bytes r) (Random.bytes_read r + k)
                (Random.numerators r) (Random.numerators_read r).

(** The [i]-th next value of [Math.floor(Math.random() * n)]. *)
Definition pick (r : Random.source) (n i : nat) : nat :=
  (Random.next_floor n (skip_numerators i r)).1.

(** The next [k] values of [Math.floor(Math.random() * n)]. *)
Definition picks (r : Random.source) (n k : nat) : list nat :=
  pick r n <$> seq 0 k.

(** Draws kept by the loop of [generateFakePatches]: the template drawn, if
    it is a non-empty string. *)
Definition kept (fakePatches : list str) (j : nat) : option str :=
  match fakePatches !! j with
  | Some randomPatch => if truthy randomPatch then Some randomPatch else None
  | None => None
  end.

(** The bytes that [randomBytes] returns [off] bytes from now. *)
Definition bytes_at (r : Random.source) (off k : nat) : list N :=
  (λ i, (Random.bytes r (Random.bytes_read r + off + i) mod 256)%N)
    <$> seq 0 k.

(** The five templates as one call of [generateFakePatches] instantiates
    them, from the source the call starts with. *)
Definition templates_of (r : Random.source) : list str :=
  fake_templates (bytes_at r 0 4) (bytes_at r 4 2) (bytes_at r 6 8)
                 (pick r 1000 0) (bytes_at r 14 4).

(** The templates drawn by the loop of that call. *)
Definition drawn (r : Random.source) (count : nat) : list nat :=
  picks (skip_numerators 1 r) 5 count.

(** The source after that call. *)
Definition after_generate (count : nat) (r : Random.source) : Random.source :=
  Random.Source (Random.bytes r) (Random.bytes_read r + 18)
                (Random.numerators r) (Random.numerators_read r + 1 + count).

(** The template at an index, as the loop reads it. *)
Definition template_at (templates : list str) (j : nat) : str :=
  default [] (templates !! j).

(** The decoys of a call that starts from the source [r]. *)
Definition decoys (r : Random.source) (count : nat) : list str :=
  template_at (templates_of r) <$> drawn r count.

(** The tokens that two calls instantiate for the template [j] are the
    same; the third template carries none. *)
Definition same_tokens (r1 r2 : Random.source) (j : nat) : Prop :=
  match j with
  | 0 => bytes_at r1 0 4 = bytes_at r2 0 4
  | 1 => bytes_at r1 4 2 = bytes_at r2 4 2 ∧ bytes_at r1 6 8 = bytes_at r2 6 8
  | 2 => True
  | 3 => pick r1 1000 0 = pick r2 1000 0
  | _ => bytes_at r1 14 4 = bytes_at r2 14 4
  end.

(** The templates as functions of the texts of their tokens. *)
Definition template_texts (x0 x1 x2 x3 x4 : str) : list str :=
  [ lit "console.log(" ++ [DQ] ++ lit "Fake patch " ++ x0 ++ [DQ]
      ++ lit ");";
    lit "const fakeVar" ++ x1 ++ lit " = " ++ [DQ] ++ x2 ++ [DQ]
      ++ lit ";";
    lit "if (Math.random() > 0.5) { console.log(" ++ [DQ]
      ++ lit "Fake condition" ++ [DQ] ++ lit "); }";
    lit "setTimeout(() => {}, " ++ x3 ++ lit ");";
    lit "const fakeObj = { id: " ++ [DQ] ++ x4 ++ [DQ]
      ++ lit ", value: Math.random() };" ].

(** One turn of the loop of [shuffleArray]: the exchange of the cells [i]
    and [j]. *)
Definition exchange {T : Type} (shuffled : list T) (i j : nat) : list T :=
  match shuffled !! i, shuffled !! j with
  | Some temp, Some other => <[j := temp]> (<[i := other]> shuffled)
  | _, _ => shuffled
  end.

(** ** Outcomes *)

(** The outcome of [loadAndPatch] when the apply stage is reached with the
    plan [plan]. *)
Definition patched_outcome {Value : Type} (content : str) (plan : list str)
    : PatchResult (Value := Value) :=
  {| originalFile := content;
     patchedFile := (applyPatches content plan).1;
     patchesApplied := (applyPatches content plan).2;
     executionResult := None;
     errors := Some [] |}.

(** The outcome of [loadAndPatch] on a document without a match. *)
Definition no_markers_outcome {Value : Type} (content : str)
    : PatchResult (Value := Value) :=
  {| originalFile := content;
     patchedFile := content;
     patchesApplied := 0;
     executionResult := None;
     errors := Some [lit "No Car(); markers found in file"] |}.

(** The outcome that reports one error and nothing else. *)
Definition failed_outcome {Value : Type} (message : str)
    : PatchResult (Value := Value) :=
  {| originalFile := [];
     patchedFile := [];
     patchesApplied := 0;
     executionResult := None;
     errors := Some [message] |}.

(** The outcome of [loadAndPatch] when neither decoys nor the shuffle are
    asked for: no random value is drawn. *)
Definition plain_outcome {Value : Type} (readFile : str → completion str)
    (config : PatchConfig) (filePath : str) : PatchResult (Value := Value) :=
  match readFile filePath with
  | Normal content =>
      if bool_decide (countMarkers content = 0)
      then no_markers_outcome content
      else patched_outcome content (patches config)
  | Throw message => failed_outcome (lit "Failed to load file: " ++ message)
  end.

(** How a call of [executePatched] ends for what the VM gives: a value
    returned settles the call as it settles itself; the message of a value
    thrown is wrapped in a new [Error], unless it cannot be read. *)
Definition executed {Value : Type}
    (result : script_result (Value := Value)) : settlement Value :=
  match result with
  | Returns result => result
  | Throws error =>
      match messageOf error with
      | inl message => Rejected (Error (lit "Execution failed: " ++ message))
      | inr raised => Rejected raised
      end
  end.

(** The outcome of the patch with the value of the execution. *)
Definition with_result {Value : Type}
    (patchResult : PatchResult (Value := Value)) (result : Value)
    : PatchResult (Value := Value) :=
  {| originalFile := originalFile patchResult;
     patchedFile := patchedFile patchResult;
     patchesApplied := patchesApplied patchResult;
     executionResult := Some result;
     errors := errors patchResult |}.

(** What the catch clause of [runWithPatches] makes of the value caught: the
    outcome of the patch with one more error, unless the message of the value
    cannot be read. *)
Definition recorded {Value : Type}
    (patchResult : PatchResult (Value := Value)) (error : thrown)
    : settlement (PatchResult (Value := Value)) :=
  match messageOf error with
  | inl message =>
      Fulfilled
        {| originalFile := originalFile patchResult;
           patchedFile := patchedFile patchResult;
           patchesApplied := patchesApplied patchResult;
           executionResult := executionResult patchResult;
           errors := Some (default [] (errors patchResult)
                           ++ [lit "Execution error: " ++ message]) |}
  | inr raised => Rejected raised
  end.

(** How [runWithPatches] ends once [loadAndPatch] has returned
    [patchResult]. *)
Definition executed_outcome {Value : Type}
    (runInNewContext : str → gmap str handle → nat
                       → script_result (Value := Value))
    (patchResult : PatchResult (Value := Value)) (context : gmap str Value)
    : settlement (PatchResult (Value := Value)) :=
  if hasErrors patchResult then Fulfilled patchResult
  else
    match executed (runInNewContext (patchedFile patchResult)
                      (makeSandbox context) 5000) with
    | Fulfilled result => Fulfilled (with_result patchResult result)
    | Rejected error => recorded patchResult error
    | Pending => Pending
    end.

(** One turn of the loop of [batchProcess]: what is stored under the path,
    when the turn ends. *)
Definition batch_turn {Value : Type} (readFile : str → completion str)
    (runInNewContext : str → gmap str handle → nat
                       → script_result (Value := Value))
    (config : PatchConfig) (context : gmap str Value) (filePath : str)
    : Async (PatchResult (Value := Value)) :=
  try_await (runWithPatches readFile runInNewContext filePath config context)
    (λ error,
       message ← readMessage error;
       mret (failed_outcome (lit "Batch processing error: " ++ message))).


(** The configuration with another value of [preserveOriginal]. *)
Definition with_preserveOriginal (flag : option bool) (config : PatchConfig)
    : PatchConfig :=
  {| patches := patches config;
     randomizeOrder := randomizeOrder config;
     addFakePatches := addFakePatches config;
     preserveOriginal := flag |}.

(** ** Sample inputs and hosts *)

(** The document of scenario A: two markers on lines 2 and 4. *)
Definition docA : str :=
  lit "a" ++ [LF] ++ lit "Car();" ++ [LF] ++ lit "b" ++ [LF] ++ lit "Car();"
    ++ [LF] ++ lit "c".

(** Two marker lines. *)
Definition two_markers : str := CAR_MARKER ++ [LF] ++ CAR_MARKER.

(** A marker line indented by two spaces under a blank line. *)
Definition blank_above : str :=
  lit "a" ++ [LF; LF] ++ lit "  Car();" ++ [LF] ++ lit "b".

(** A source whose draws of [Math.random] are all [m / 2^53]. *)
Definition constant_source (m : N) : Random.source :=
  Random.Source (λ i, N.of_nat i) 0 (λ _, m) 0.

(** A file store in which every path holds [content]. *)
Definition one_file (content : str) : str → completion str :=
  λ _, Normal content.

(** A VM with a clock, for examples: a script runs [cost] milliseconds
    ([None]: for ever) and yields its own text; it is stopped when the
    timeout is passed. *)
Definition clocked_vm (cost : str → option nat)
    : str → gmap str (handle (Value := str)) → nat
      → script_result (Value := str) :=
  λ code _ timeout,
    match cost code with
    | Some ms =>
        if bool_decide (ms ≤ timeout) then Returns (Fulfilled code)
        else Throws (Error (lit "Script execution timed out after "
                            ++ numberToString timeout ++ lit "ms"))
    | None => Throws (Error (lit "Script execution timed out after "
                             ++ numberToString timeout ++ lit "ms"))
    end.

(** A VM for examples that knows four scripts: a promise that never
    settles, a promise rejected with [null], a promise rejected with an
    object whose [message] throws [null] when it is read, and the statement
    that throws [null].  Any other script yields its own text. *)
Definition promise_vm
    : str → gmap str (handle (Value := str)) → nat
      → script_result (Value := str) :=
  λ code _ _,
    if bool_decide (code = lit "new Promise(() => {})") then Returns Pending
    else if bool_decide (code = lit "Promise.reject(null)")
    then Returns (Rejected Null)
    else if bool_decide
              (code = lit "Promise.reject({ get message() { throw null } })")
    then Returns (Rejected (Faulty Null))
    else if bool_decide (code = lit "throw null") then Throws Null
    else Returns (Fulfilled code).

(** Two files: a marker alone, and a text without a marker. *)
Definition two_files : str → completion str :=
  λ path, if bool_decide (path = lit "a.ts") then Normal CAR_MARKER
          else Normal (lit "1 + 1").

(** One real fragment, the text of a script. *)
Definition script_config (script : str) : PatchConfig :=
  {| patches := [script];
     randomizeOrder := None;
     addFakePatches := None;
     preserveOriginal := None |}.

(** One real fragment, no decoys, no shuffle. *)
Definition sample_config (flag : option bool) : PatchConfig :=
  {| patches := [lit "X();"];
     randomizeOrder := None;
     addFakePatches := None;
     preserveOriginal := flag |}.

(** The outcome of the patch of [two_markers] by the sample
    configuration. *)
Definition sample_patched : PatchResult (Value := str) :=
  patched_outcome two_markers [lit "X();"].

(** Three files, the second of which cannot be read. *)
Definition three_files : str → completion str :=
  λ path, if bool_decide (path = lit "a.ts") then Normal docA
          else if bool_decide (path = lit "b.ts") then Throw (lit "ENOENT")
          else Normal two_markers.

(** The outcome of the pipeline run on one of them alone. *)
Definition individually (filePath : str)
    : option (PatchResult (Value := str)) :=
  match (runWithPatches three_files (clocked_vm (λ _, Some 1)) filePath
           (sample_config None) ∅ (constant_source 0)).1 with
  | Fulfilled res => Some res
  | _ => None
  end.

(** A fragment that is one line of text, with no space at its ends, and
    that is not the marker token. *)
Definition plain_line (p : str) : Prop :=
  Forall (λ c, is_line_terminator c = false) p ∧ trim p = p ∧ p ≠ [] ∧
  p ≠ CAR_MARKER.

(** The text ends its lines with line feeds only: it holds no carriage
    return, line separator or paragraph separator. *)
Definition lf_only (s : str) : Prop :=
  Forall (λ c, is_line_terminator c = true → c = LF) s.

(** The number of lines that are the marker token once trimmed. *)
Definition count_marker_lines (lines : list str) : nat :=
  length (filter (λ line, trim line = CAR_MARKER) lines).

(** A fragment that brings no marker: it is not empty, ends its lines with
    line feeds only, and none of its lines is the marker token once
    trimmed. *)
Definition marker_free (p : str) : Prop :=
  p ≠ [] ∧ lf_only p ∧ count_marker_lines (split_lf p) = 0.

(** A text with a carriage return before a marker. *)
Definition after_CR : str := lit "a" ++ [13%N] ++ CAR_MARKER.

(** The loop of [shuffleArray] run on given draws: from the cell [i] down
    to the cell 1, each cell is exchanged with the cell drawn for it. *)
Fixpoint exchanges {T : Type} (i : nat) (js : list nat) (shuffled : list T)
    : list T :=
  match i, js with
  | S i', j :: js' => exchanges i' js' (exchange shuffled i j)
  | _, _ => shuffled
  end.

(** The draws of that loop from the source [r]: for the cell [i - k], the
    [k]-th next value of [Math.floor(Math.random() * (i - k + 1))]. *)
Definition shuffle_draws (r : Random.source) (i : nat) : list nat :=
  (λ k, pick r (i - k + 1) k) <$> seq 0 i.

(** A source whose draws of [Math.random] have the numerators [ms]. *)
Definition source_of (ms : list N) : Random.source :=
  Random.Source (λ _, 0%N) 0 (λ k, default 0%N (ms !! k)) 0.

(** A numerator [m] for which [Math.floor(m / 2^53 * n)] is [j]. *)
Definition numerator_for (n j : nat) : N :=
  ((N.of_nat j * 2 ^ 53 + N.of_nat n - 1) / N.of_nat n)%N.

(** A source whose first [skip] draws of [Math.random] are 0 and whose
    next draws have the numerators [ms]; its random bytes are 0. *)
Definition source_after (skip : nat) (ms : list N) : Random.source :=
  Random.Source (λ _, 0%N) 0
    (λ k, if decide (k < skip) then 0%N else default 0%N (ms !! (k - skip)))
    0.


(** * Properties *)

(** ** What a match of the marker pattern looks like *)

Section Regex.

Lemma line_terminator_is_space c :
  is_line_terminator c = true → is_space c = true.
Proof.
  unfold is_line_terminator. intros H. apply bool_decide_eq_true in H.
  repeat (apply elem_of_cons in H as [->|H]; [reflexivity|]).
  by apply elem_of_nil in H.
Qed.

Lemma re_tail_spec s n :
  re_tail s = Some n →
  ∃ trailing rest, s = trailing ++ rest ∧ n = length trailing ∧
    Forall (λ c, is_space c = true) trailing ∧ at_line_end rest = true.
Proof.
  revert n. induction s as [|c s IH]; intros n H; simpl in H.
  - inversion H. exists [], []. by repeat split.
  - destruct (is_space c) eqn:Hc.
    + destruct (re_tail s) as [k|] eqn:Hk.
      * inversion H; subst.
        destruct (IH k eq_refl) as (t & r & -> & -> & Ht & Hr).
        exists (c :: t), r. repeat split; auto.
      * destruct (is_line_terminator c) eqn:Hl; inversion H; subst.
        exists [], (c :: s). by repeat split.
    + destruct (is_line_terminator c) eqn:Hl; inversion H; subst.
      exists [], (c :: s). by repeat split.
Qed.

Lemma strip_prefix_spec p s rest :
  strip_prefix p s = Some rest → s = p ++ rest.
Proof.
  revert s. induction p as [|a p IH]; intros [|b s] H; simpl in H; try done.
  - by inversion H.
  - by inversion H.
  - destruct (N.eqb_spec a b); [|done]. subst. simpl. f_equal. by apply IH.
Qed.

Lemma re_token_spec s n :
  re_token s = Some n →
  ∃ trailing rest, s = CAR_MARKER ++ trailing ++ rest ∧
    n = length CAR_MARKER + length trailing ∧
    Forall (λ c, is_space c = true) trailing ∧ at_line_end rest = true.
Proof.
  unfold re_token. destruct (strip_prefix CAR_MARKER s) as [r|] eqn:Hp; [|done].
  apply strip_prefix_spec in Hp. intros H.
  destruct (re_tail r) as [k|] eqn:Hk; [|done]. inversion H; subst.
  destruct (re_tail_spec _ _ Hk) as (t & rest & -> & -> & Ht & Hr).
  by exists t, rest.
Qed.

Lemma re_stop_spec s indent n :
  (λ n, ([], n)) <$> re_token s = Some (indent, n) → match_shape s indent n.
Proof.
  intros H. destruct (re_token s) as [k|] eqn:Hk; [|done].
  inversion H; subst.
  destruct (re_token_spec _ _ Hk) as (t & rest & -> & -> & Ht & Hr).
  exists t, rest. repeat split; auto.
Qed.

Lemma re_body_spec s indent n :
  re_body s = Some (indent, n) → match_shape s indent n.
Proof.
  revert indent n. induction s as [|c s IH]; intros indent n H.
  - by apply re_stop_spec.
  - simpl in H. destruct (is_space c) eqn:Hc; [|by apply re_stop_spec].
    destruct (re_body s) as [[i k]|] eqn:Hk; [|by apply re_stop_spec].
    inversion H; subst. clear H.
    destruct (IH _ _ eq_refl) as (t & rest & -> & -> & Hi & Ht & Hr).
    exists t, rest. repeat split; auto.
Qed.

End Regex.

(** ** The cut of a document by the matches *)

Section Segments.

Lemma last_unit_cons prev c s :
  last_unit prev (c :: s) = last_unit (Some c) s.
Proof.
  unfold last_unit. destruct s as [|d s]; [done|].
  change (last (c :: d :: s)) with (last (d :: s)).
  by destruct (last (d :: s)) eqn:E; [|by apply last_None in E].
Qed.

(** Passing the [skip] code units of a match is moving [lastIndex] behind
    it. *)
Lemma scan_skip k pos prev s :
  k ≤ length s →
  scan k pos prev s
  = scan 0 (pos + k) (last_unit prev (take k s)) (drop k s).
Proof.
  revert k pos prev. induction s as [|c s IH]; intros k pos prev Hk.
  - simpl in Hk. by assert (k = 0) as -> by lia.
  - destruct k as [|k].
    + rewrite Nat.add_0_r. done.
    + simpl in Hk. simpl scan at 1. rewrite IH by lia.
      rewrite firstn_cons, last_unit_cons. simpl drop.
      by replace (S pos + k) with (pos + S k) by lia.
Qed.

Lemma scan_segments s : ∀ pos prev, segments pos prev s (scan 0 pos prev s).
Proof.
  remember (length s) as len eqn:Hlen. revert s Hlen.
  induction (lt_wf len) as [len _ IH]. intros s Hlen pos prev.
  destruct s as [|c s]; [constructor|].
  simpl scan. destruct (re_at prev (c :: s)) as [[indent n]|] eqn:Hre.
  - pose proof Hre as Hat. unfold re_at in Hat.
    destruct (at_line_start prev) eqn:Hstart; [|done].
    destruct (re_body_spec _ _ _ Hat) as (t & rest & Hs & -> & Hi & Ht & Hr).
    set (m := indent ++ CAR_MARKER ++ t) in *.
    replace (indent ++ CAR_MARKER ++ t ++ rest) with (m ++ rest) in Hs
      by (unfold m; by rewrite <- !app_assoc).
    assert (Hm : 0 < length m).
    { unfold m. rewrite !length_app. simpl. lia. }
    assert (Hc : ∃ m', m = c :: m').
    { destruct m as [|c' m']; [simpl in Hm; lia|].
      simpl in Hs. inversion Hs. by exists m'. }
    destruct Hc as [m' Hm'].
    assert (Hs' : s = m' ++ rest).
    { rewrite Hm' in Hs. simpl in Hs. by inversion Hs. }
    rewrite scan_skip by (rewrite Hm', Hs', length_app; simpl; lia).
    rewrite Hs. rewrite take_app_length.
    replace (length m - 1) with (length m') by (rewrite Hm'; simpl; lia).
    rewrite Hs'. rewrite take_app_length, drop_app_length.
    replace (S pos + length m') with (pos + length m)
      by (rewrite Hm'; simpl; lia).
    rewrite <- last_unit_cons with (prev := prev), <- Hm'.
    unfold m. constructor; auto.
    eapply IH; [|reflexivity].
    rewrite Hlen, Hs. rewrite length_app. lia.
  - constructor; [done|]. eapply IH; [|reflexivity]. rewrite Hlen. simpl. lia.
Qed.

Lemma pieces_segments s : segments 0 None s (pieces s).
Proof. apply scan_segments. Qed.

Lemma segments_render pos prev s ps : segments pos prev s ps → render ps = s.
Proof. induction 1; simpl; congruence. Qed.

Lemma matched_texts_markers ps : matched_texts ps = snd <$> markers ps.
Proof.
  induction ps as [|[c|i ind m] ps IH]; simpl; [done|done|].
  unfold matched_texts, markers in *. simpl. by rewrite IH.
Qed.

Lemma countMarkers_markers s : countMarkers s = length (markers (pieces s)).
Proof.
  unfold countMarkers, match_all. rewrite matched_texts_markers.
  destruct (markers (pieces s)); simpl; [done|]. by rewrite length_fmap.
Qed.

(** Markers are met at strictly increasing indices, each at its offset in
    the text. *)
Lemma segments_indices pos prev s ps :
  segments pos prev s ps →
  Forall (λ mk, pos ≤ mk.1.1) (markers ps) ∧
  StronglySorted (λ a b, a.1.1 < b.1.1) (markers ps).
Proof.
  induction 1 as [| ? ? ? ? ? ? ? [IH1 IH2]
                  | ? ? indent trailing ? ? ? ? ? ? ? [IH1 IH2]].
  - split; constructor.
  - split; [|done]. change (markers (Lit c :: ps)) with (markers ps).
    eapply Forall_impl; [exact IH1|]. simpl. lia.
  - assert (Hlen : 0 < length (indent ++ CAR_MARKER ++ trailing)).
    { rewrite !length_app. simpl. lia. }
    change (markers (Hit pos indent (indent ++ CAR_MARKER ++ trailing) :: ps))
      with ((pos, indent, indent ++ CAR_MARKER ++ trailing) :: markers ps).
    set (n := length (indent ++ CAR_MARKER ++ trailing)) in *.
    split; constructor; try done;
      (eapply Forall_impl; [exact IH1|]; intros [[i a] b]; simpl; lia).
Qed.

End Segments.

(** ** The apply stage *)

Section Apply.

Lemma live_prefix_all plan :
  Forall (λ p, truthy p = true) plan → live_prefix plan = plan.
Proof.
  induction 1 as [|p plan Hp _ IH]; simpl; [done|]. by rewrite Hp, IH.
Qed.

Lemma live_prefix_stop pre post :
  Forall (λ p, truthy p = true) pre → live_prefix (pre ++ [] :: post) = pre.
Proof.
  induction 1 as [|p plan Hp _ IH]; simpl; [done|]. by rewrite Hp, IH.
Qed.

Lemma live_prefix_lookup plan k p :
  live_prefix plan !! k = Some p → plan !! k = Some p ∧ truthy p = true.
Proof.
  revert k. induction plan as [|q plan IH]; intros k H; simpl in H; [done|].
  destruct (truthy q) eqn:Hq; [|done].
  destruct k as [|k]; [by inversion H; subst|]. by apply IH.
Qed.

Lemma live_prefix_end plan :
  match plan !! length (live_prefix plan) with
  | Some p => truthy p = false
  | None => True
  end.
Proof.
  induction plan as [|q plan IH]; simpl; [done|].
  destruct q as [|c q]; simpl; done.
Qed.

Lemma replacer_live plan m indent k p :
  live_prefix plan !! k = Some p →
  replacer plan m indent k = (indentPatch indent p, S k).
Proof.
  intros H. apply live_prefix_lookup in H as [Hk Hp].
  unfold replacer. rewrite Hk, Hp.
  apply lookup_lt_Some in Hk. by rewrite bool_decide_eq_true_2.
Qed.

Lemma replacer_stop plan m indent :
  replacer plan m indent (length (live_prefix plan))
  = (m, length (live_prefix plan)).
Proof.
  unfold replacer. pose proof (live_prefix_end plan) as H.
  destruct (plan !! length (live_prefix plan)) as [p|];
    [rewrite H|]; by destruct (bool_decide _).
Qed.

(** Past the last fragment, markers are copied. *)
Lemma fill_past frags i ps : length frags ≤ i → fill frags i ps = render ps.
Proof.
  revert i. induction ps as [|[c|index indent m] ps IH]; intros i Hi; simpl.
  - done.
  - by rewrite IH.
  - rewrite lookup_ge_None_2 by done. rewrite IH by lia. done.
Qed.

(** What [replace] with the replacement function of [loadAndPatch] computes,
    from a counter [k] that has not passed the live fragments. *)
Lemma replace_pieces_replacer plan ps k :
  k ≤ length (live_prefix plan) →
  replace_pieces (replacer plan) ps k
  = (fill (live_prefix plan) k ps,
     (k + length (markers ps)) `min` length (live_prefix plan)).
Proof.
  revert k. induction ps as [|[c|index indent m] ps IH]; intros k Hk.
  - simpl. f_equal. lia.
  - simpl. rewrite IH by done. done.
  - simpl. destruct (live_prefix plan !! k) as [p|] eqn:Hp.
    + rewrite (replacer_live _ _ _ _ _ Hp).
      apply lookup_lt_Some in Hp. rewrite IH by lia.
      f_equal. lia.
    + apply lookup_ge_None in Hp.
      assert (k = length (live_prefix plan)) as -> by lia.
      rewrite replacer_stop. rewrite IH by lia.
      rewrite !fill_past by lia. f_equal. lia.
Qed.

Theorem applyPatches_spec content plan :
  applyPatches content plan
  = (fill (live_prefix plan) 0 (pieces content),
     countMarkers content `min` length (live_prefix plan)).
Proof.
  unfold applyPatches, JS.replace.
  rewrite replace_pieces_replacer by lia. by rewrite countMarkers_markers.
Qed.

End Apply.

(** ** The random draws of the planner *)

Ltac unfold_M :=
  unfold mbind, M_bind, mret, M_ret, try_catch, throw, randomBytes,
    random_floor in *.

Section Draws.

Lemma skip_numerators_0 r : skip_numerators 0 r = r.
Proof. destruct r. unfold skip_numerators. simpl. by rewrite Nat.add_0_r. Qed.

Lemma skip_numerators_S k r :
  skip_numerators (S k) r = skip_numerators k (skip_numerators 1 r).
Proof.
  destruct r. unfold skip_numerators. simpl. f_equal. lia.
Qed.

Lemma next_floor_source n r :
  (Random.next_floor n r).2 = skip_numerators 1 r.
Proof.
  destruct r. unfold skip_numerators. simpl. f_equal. lia.
Qed.

Lemma next_floor_lt n r : 0 < n → (Random.next_floor n r).1 < n.
Proof.
  intros Hn. unfold Random.next_floor. simpl.
  set (m := (Random.numerators r (Random.numerators_read r) mod 2 ^ 53)%N).
  assert (Hm : (m < 2 ^ 53)%N) by (apply N.mod_lt; done).
  assert (m * N.of_nat n / 2 ^ 53 < N.of_nat n)%N; [|lia].
  apply N.Div0.div_lt_upper_bound. nia.
Qed.

Lemma pick_lt r n i : 0 < n → pick r n i < n.
Proof. apply next_floor_lt. Qed.

Lemma picks_S r n k :
  picks r n (S k) = pick r n 0 :: picks (skip_numerators 1 r) n k.
Proof.
  unfold picks. rewrite <- cons_seq, <- fmap_S_seq. simpl. f_equal.
  rewrite <- list_fmap_compose. apply list_fmap_ext. intros _ i _. simpl.
  unfold pick. by rewrite skip_numerators_S.
Qed.

Lemma length_picks r n k : length (picks r n k) = k.
Proof. unfold picks. by rewrite length_fmap, length_seq. Qed.

Lemma random_floor_spec n r :
  random_floor n r = (Normal (pick r n 0), skip_numerators 1 r).
Proof.
  unfold random_floor, pick. rewrite skip_numerators_0.
  rewrite <- (next_floor_source n r). by destruct (Random.next_floor n r).
Qed.

Lemma fake_loop_spec fakePatches n result r :
  fake_loop fakePatches n result r
  = (Normal (result
             ++ omap (kept fakePatches) (picks r (length fakePatches) n)),
     skip_numerators n r).
Proof.
  revert result r. induction n as [|n IH]; intros result r.
  - simpl. unfold_M. by rewrite app_nil_r, skip_numerators_0.
  - simpl fake_loop. unfold mbind, M_bind. rewrite random_floor_spec.
    rewrite IH, picks_S, <- skip_numerators_S. f_equal. f_equal.
    set (j := pick r (length fakePatches) 0).
    set (rest := picks (skip_numerators 1 r) (length fakePatches) n).
    change (omap (kept fakePatches) (j :: rest))
      with (match kept fakePatches j with
            | Some y => y :: omap (kept fakePatches) rest
            | None => omap (kept fakePatches) rest
            end).
    unfold kept at 2.
    destruct (fakePatches !! j) as [p|];
      [destruct (truthy p)|]; by rewrite <- ?app_assoc.
Qed.

Lemma fake_templates_kept h0 h1 h2 t h4 j :
  j < 5 →
  kept (fake_templates h0 h1 h2 t h4) j
  = Some (template_at (fake_templates h0 h1 h2 t h4) j).
Proof.
  intros Hj. unfold kept, template_at.
  do 5 (destruct j as [|j]; [reflexivity|]). lia.
Qed.

Lemma length_fake_templates h0 h1 h2 t h4 :
  length (fake_templates h0 h1 h2 t h4) = 5.
Proof. done. Qed.

Lemma omap_kept_templates h0 h1 h2 t h4 js :
  Forall (λ j, j < 5) js →
  omap (kept (fake_templates h0 h1 h2 t h4)) js
  = template_at (fake_templates h0 h1 h2 t h4) <$> js.
Proof.
  induction 1 as [|j js Hj _ IH]; [done|].
  change (omap ?f (j :: js))
    with (match f j with Some y => y :: omap f js | None => omap f js end).
  rewrite fake_templates_kept by done. by rewrite IH.
Qed.

Lemma Forall_picks_lt r n k : 0 < n → Forall (λ j, j < n) (picks r n k).
Proof.
  intros Hn. unfold picks. apply Forall_fmap, Forall_forall.
  intros i _. simpl. by apply pick_lt.
Qed.

Lemma randomBytes_spec k r :
  randomBytes k r = (Normal (bytes_at r 0 k), skip_bytes k r).
Proof.
  unfold randomBytes, Random.next_bytes, bytes_at, skip_bytes.
  do 2 f_equal. apply list_fmap_ext. intros _ i _. simpl.
  by rewrite Nat.add_0_r.
Qed.

Lemma bind_normal {A B : Type} (m : M A) (f : A → M B) r a r' :
  m r = (Normal a, r') → (m ≫= f) r = f a r'.
Proof. intros H. unfold mbind, M_bind. by rewrite H. Qed.

(** One call of the decoy generator: [count] fragments, the templates drawn
    one after the other among the five instantiated for this call. *)
Lemma generateFakePatches_spec count r :
  generateFakePatches count r
  = (Normal (template_at (templates_of r) <$> drawn r count),
     after_generate count r).
Proof.
  unfold generateFakePatches.
  erewrite bind_normal by apply randomBytes_spec.
  erewrite bind_normal by apply randomBytes_spec.
  erewrite bind_normal by apply randomBytes_spec.
  erewrite bind_normal by apply random_floor_spec.
  erewrite bind_normal by apply randomBytes_spec.
  rewrite fake_loop_spec, length_fake_templates.
  rewrite omap_kept_templates by (apply Forall_picks_lt; lia).
  destruct r as [b br m mr].
  unfold templates_of, drawn, bytes_at, pick, picks, after_generate,
    skip_numerators, skip_bytes.
  cbn [Random.bytes Random.bytes_read Random.numerators
       Random.numerators_read Random.next_floor fst snd app].
  rewrite !Nat.add_0_r.
  replace (br + 4 + 2) with (br + 6) by lia.
  replace (br + 6 + 8) with (br + 14) by lia.
  replace (br + 14 + 4) with (br + 18) by lia.
  done.
Qed.

Lemma length_generateFakePatches count r :
  length (template_at (templates_of r) <$> drawn r count) = count.
Proof. unfold drawn. by rewrite length_fmap, length_picks. Qed.

End Draws.

(** ** The shuffle *)

Section Shuffle.

Context {T : Type}.
Implicit Types l shuffled : list T.

Lemma insert_Permutation l i x y :
  l !! i = Some x → <[i := y]> l ≡ₚ y :: delete i l.
Proof.
  revert i. induction l as [|z l IH]; intros [|i] H; simpl in *; try done.
  etrans; [apply perm_skip, (IH _ H)|]. apply Permutation_swap.
Qed.

(** Exchanging two cells of an array permutes it. *)
Lemma swap_Permutation l i j a b :
  l !! i = Some a → l !! j = Some b →
  <[j := a]> (<[i := b]> l) ≡ₚ l.
Proof.
  intros Hi Hj. destruct (decide (i = j)) as [->|Hne].
  - assert (a = b) as -> by congruence.
    rewrite list_insert_insert_eq. by rewrite list_insert_id.
  - assert (Hj' : <[i := b]> l !! j = Some b)
      by by rewrite list_lookup_insert_ne.
    etrans; [apply (insert_Permutation _ _ b a Hj')|].
    etrans; [|symmetry; apply (delete_Permutation l i a Hi)].
    constructor. apply (Permutation_cons_inv (a := b)).
    etrans; [symmetry; apply (delete_Permutation _ _ _ Hj')|].
    by eapply insert_Permutation.
Qed.

(** In the loop of [shuffleArray] both indices are inside the array. *)
Lemma shuffle_loop_in_range shuffled i r :
  i < length shuffled →
  is_Some (shuffled !! i) ∧ is_Some (shuffled !! pick r (i + 1) 0).
Proof.
  intros Hi. pose proof (pick_lt r (i + 1) 0).
  split; apply lookup_lt_is_Some; lia.
Qed.

Lemma shuffle_loop_S i shuffled :
  shuffle_loop (S i) shuffled
  = random_floor (S i + 1) ≫= λ j, shuffle_loop i (exchange shuffled (S i) j).
Proof. done. Qed.

Lemma exchange_Permutation shuffled i j : exchange shuffled i j ≡ₚ shuffled.
Proof.
  unfold exchange.
  destruct (shuffled !! i) as [a|] eqn:Hi; [|done].
  destruct (shuffled !! j) as [b|] eqn:Hj; [|done].
  by apply swap_Permutation.
Qed.

Lemma shuffle_loop_spec i shuffled r :
  ∃ out, shuffle_loop i shuffled r = (Normal out, skip_numerators i r) ∧
         out ≡ₚ shuffled.
Proof.
  revert shuffled r. induction i as [|i IH]; intros shuffled r.
  - exists shuffled. by rewrite skip_numerators_0.
  - rewrite shuffle_loop_S.
    erewrite bind_normal by apply random_floor_spec.
    destruct (IH (exchange shuffled (S i) (pick r (S i + 1) 0))
                 (skip_numerators 1 r)) as (out & Hout & Hperm).
    exists out. rewrite (skip_numerators_S i r). split; [exact Hout|].
    etrans; [exact Hperm|]. apply exchange_Permutation.
Qed.

(** [shuffleArray] returns, and returns a permutation of its argument. *)
Lemma shuffleArray_spec (array : list T) r :
  ∃ out, shuffleArray array r
         = (Normal out, skip_numerators (length array - 1) r) ∧
         out ≡ₚ array.
Proof. apply shuffle_loop_spec. Qed.

End Shuffle.

(** ** The planner and [loadAndPatch] *)

Section Pipeline.

Context {Value : Type}.
Variable readFile : str → completion str.
Variable runInNewContext :
  str → gmap str (handle (Value := Value)) → nat
  → script_result (Value := Value).

Lemma length_decoys r count : length (decoys r count) = count.
Proof. apply length_generateFakePatches. Qed.

Lemma template_at_truthy r j :
  j < 5 → truthy (template_at (templates_of r) j) = true.
Proof.
  intros Hj. unfold templates_of.
  do 5 (destruct j as [|j]; [reflexivity|]). lia.
Qed.

Lemma decoys_truthy r count : Forall (λ p, truthy p = true) (decoys r count).
Proof.
  unfold decoys, drawn. apply Forall_fmap.
  eapply Forall_impl; [apply (Forall_picks_lt _ 5); lia|].
  intros j Hj. by apply template_at_truthy.
Qed.

Lemma preparePatches_spec config markerCount r :
  preparePatches config markerCount r
  = if enabled (addFakePatches config)
    then (Normal (patches config ++ decoys r markerCount),
          after_generate markerCount r)
    else (Normal (patches config), r).
Proof.
  unfold preparePatches. destruct (enabled (addFakePatches config)); [|done].
  erewrite bind_normal by apply generateFakePatches_spec. done.
Qed.

Lemma orderPatches_spec config plan r :
  ∃ out r', orderPatches config plan r = (Normal out, r') ∧ out ≡ₚ plan ∧
            (enabled (randomizeOrder config) = false → out = plan ∧ r' = r).
Proof.
  unfold orderPatches. destruct (enabled (randomizeOrder config)).
  - destruct (shuffleArray_spec plan r) as (out & Hout & Hperm).
    by exists out, (skip_numerators (length plan - 1) r).
  - by exists plan, r.
Qed.

Lemma loadAndPatch_unreadable filePath config r message :
  readFile filePath = Throw message →
  loadAndPatch (Value := Value) readFile filePath config r
  = (Normal (failed_outcome (lit "Failed to load file: " ++ message)), r).
Proof.
  intros H. unfold loadAndPatch, try_catch, mbind, M_bind. by rewrite H.
Qed.

Lemma loadAndPatch_no_markers filePath config r content :
  readFile filePath = Normal content → countMarkers content = 0 →
  loadAndPatch (Value := Value) readFile filePath config r
  = (Normal (no_markers_outcome content), r).
Proof.
  intros H H0. unfold loadAndPatch, try_catch, mbind, M_bind.
  rewrite H, H0. done.
Qed.

(** The stages of [loadAndPatch] on a document with markers: the plan is
    prepared, ordered once, then applied. *)
Lemma loadAndPatch_markers filePath config r content :
  readFile filePath = Normal content → countMarkers content ≠ 0 →
  ∃ combined r1 plan r2,
    preparePatches config (countMarkers content) r = (Normal combined, r1) ∧
    orderPatches config combined r1 = (Normal plan, r2) ∧
    loadAndPatch (Value := Value) readFile filePath config r
      = (Normal (patched_outcome content plan), r2).
Proof.
  intros H H0.
  destruct (preparePatches config (countMarkers content) r) as [c r1] eqn:H1.
  assert (∃ l, c = Normal l) as [l ->].
  { rewrite preparePatches_spec in H1.
    destruct (enabled (addFakePatches config)); inversion H1; eauto. }
  destruct (orderPatches_spec config l r1) as (plan & r2 & H2 & _).
  exists l, r1, plan, r2. split; [done|]. split; [done|].
  unfold loadAndPatch, try_catch. unfold mbind at 1, M_bind at 1.
  rewrite H. rewrite bool_decide_eq_false_2 by done.
  erewrite bind_normal by exact H1. erewrite bind_normal by exact H2.
  unfold patched_outcome. by destruct (applyPatches content plan).
Qed.


End Pipeline.

(** ** Markers in place *)

Section Markers.

Lemma fill_app frags i ps qs :
  fill frags i (ps ++ qs)
  = fill frags i ps ++ fill frags (i + length (markers ps)) qs.
Proof.
  revert i. induction ps as [|[c|index indent m] ps IH]; intros i; simpl.
  - by rewrite Nat.add_0_r.
  - by rewrite IH.
  - rewrite IH, <- app_assoc. do 3 f_equal.
    change (markers (Hit index indent m :: ps))
      with ((index, indent, m) :: markers ps). simpl. lia.
Qed.

Lemma render_app ps qs : render (ps ++ qs) = render ps ++ render qs.
Proof.
  induction ps as [|[c|index indent m] ps IH]; simpl; [done| |].
  - by rewrite IH.
  - by rewrite IH, app_assoc.
Qed.

(** A marker that comes after the fragments are used up is copied, and so
    is everything behind it. *)
Lemma fill_copy frags before index indent m after :
  length frags ≤ length (markers before) →
  fill frags 0 (before ++ Hit index indent m :: after)
  = fill frags 0 before ++ m ++ render after.
Proof.
  intros H. rewrite fill_app. simpl.
  rewrite lookup_ge_None_2 by done.
  by rewrite (fill_past _ (S _)) by lia.
Qed.

(** Every marker is group 1, the token and trailing spaces. *)
Lemma segments_marker pos prev s ps before index indent m after :
  segments pos prev s ps →
  ps = before ++ Hit index indent m :: after →
  index = pos + length (render before) ∧
  Forall (λ c, is_space c = true) indent ∧
  ∃ trailing, m = indent ++ CAR_MARKER ++ trailing ∧
              Forall (λ c, is_space c = true) trailing.
Proof.
  intros Hseg. revert before.
  induction Hseg as [| ? ? ? ? ? ? ? IH | ? ? ind trailing ? ? ? ? ? ? ? IH];
    intros before Heq.
  - by destruct before.
  - destruct before as [|p before]; [done|]. inversion Heq; subst.
    destruct (IH _ eq_refl) as (-> & ? & ?). simpl. split; [lia|done].
  - destruct before as [|p before]; inversion Heq; subst.
    + simpl. split; [lia|]. split; [done|]. by exists trailing.
    + destruct (IH _ eq_refl) as (-> & ? & ?). simpl.
      split; [|done]. rewrite (length_app _ (render before)). lia.
Qed.

Lemma truthy_nonempty plan :
  Forall (λ p : str, p ≠ []) plan → Forall (λ p, truthy p = true) plan.
Proof. intros H. eapply Forall_impl; [exact H|]. by intros [|c p]. Qed.

End Markers.

(** ** The apply stage: partial fill and the empty fragment *)

(** C1, as the claim states it, fails: with the plan made of the empty
    string alone (one element, fewer than the two markers, no decoys) no
    marker receives the element, the text is unchanged and [patchesApplied]
    is 0, not the plan length 1. *)
Lemma partial_fill_counterexample :
  length [[] : str] < countMarkers two_markers ∧
  applyPatches two_markers [[]] = (two_markers, 0) ∧
  (applyPatches two_markers [[]]).2 ≠ length [[] : str] ∧
  (applyPatches two_markers [[]]).1 ≠ fill [[]] 0 (pieces two_markers).
Proof. vm_compute. repeat split; (lia || discriminate || reflexivity). Qed.

(** C1 (amended): for every document and every plan without an empty
    string, the markers are met at strictly increasing offsets of the
    document, the i-th marker receives the i-th element of the plan (with
    the marker's indentation) if there is one and is copied otherwise, and
    [patchesApplied] is the smaller of the marker count and the plan length.
    When the plan is shorter than the marker count, [patchesApplied] is the
    plan length and every marker past the plan still stands in the patched
    text as it was matched, token included, with all the text behind it. *)
Theorem partial_fill_law (content : str) (plan : list str) :
  Forall (λ p : str, p ≠ []) plan →
  render (pieces content) = content ∧
  StronglySorted (λ a b, a.1.1 < b.1.1) (markers (pieces content)) ∧
  (applyPatches content plan).1 = fill plan 0 (pieces content) ∧
  (applyPatches content plan).2 = countMarkers content `min` length plan ∧
  (length plan < countMarkers content →
   (applyPatches content plan).2 = length plan ∧
   ∀ before index indent m after,
     pieces content = before ++ Hit index indent m :: after →
     length plan ≤ length (markers before) →
     index = length (render before) ∧
     (∃ trailing, m = indent ++ CAR_MARKER ++ trailing) ∧
     (applyPatches content plan).1
     = fill plan 0 before ++ m ++ render after).
Proof.
  intros Hplan. apply truthy_nonempty, live_prefix_all in Hplan.
  pose proof (pieces_segments content) as Hseg.
  rewrite applyPatches_spec, Hplan. simpl.
  split; [by eapply segments_render|].
  split; [by eapply segments_indices|].
  split; [done|]. split; [done|].
  intros Hshort. split; [lia|].
  intros before index indent m after Hcut Hpast.
  destruct (segments_marker _ _ _ _ _ _ _ _ _ Hseg Hcut)
    as (Hindex & _ & trailing & Hm & _).
  split; [done|]. split; [by exists trailing|].
  rewrite Hcut. by apply fill_copy.
Qed.

Lemma partial_fill_law_witness :
  Forall (λ p : str, p ≠ []) [lit "X();"] ∧
  (applyPatches docA [lit "X();"]).2
  = countMarkers docA `min` length [lit "X();"].
Proof.
  split; [by constructor|].
  destruct (partial_fill_law docA [lit "X();"]) as (_ & _ & _ & H & _);
    [by constructor | exact H].
Defined.

(** Scenario A of the specification. *)
Example scenario_A :
  applyPatches docA [lit "X();"]
  = (lit "a" ++ [LF] ++ lit "X();" ++ [LF] ++ lit "b" ++ [LF] ++ lit "Car();"
       ++ [LF] ++ lit "c", 1).
Proof. reflexivity. Qed.

(** C10: when the plan holds an empty string, [pre] being the elements
    before the first one, only the first markers receive the elements of
    [pre]; the marker that would receive the empty string and every later
    marker are copied; [patchesApplied] is the smaller of the marker count
    and the length of [pre], it never passes the empty element, and what
    follows that element in the plan is never used. *)
Theorem empty_fragment_halts (content : str) (pre post : list str) :
  Forall (λ p : str, p ≠ []) pre →
  (applyPatches content (pre ++ [] :: post)).1 = fill pre 0 (pieces content) ∧
  (applyPatches content (pre ++ [] :: post)).2
  = countMarkers content `min` length pre ∧
  (applyPatches content (pre ++ [] :: post)).2 ≤ length pre ∧
  applyPatches content (pre ++ [] :: post) = applyPatches content pre ∧
  ∀ before index indent m after,
    pieces content = before ++ Hit index indent m :: after →
    length pre ≤ length (markers before) →
    (applyPatches content (pre ++ [] :: post)).1
    = fill pre 0 before ++ m ++ render after.
Proof.
  intros Hpre. apply truthy_nonempty in Hpre.
  rewrite !applyPatches_spec, live_prefix_stop, live_prefix_all by done.
  simpl. repeat split; try done; [lia|].
  intros before index indent m after Hcut Hpast.
  rewrite Hcut. by apply fill_copy.
Qed.

Lemma empty_fragment_halts_witness :
  Forall (λ p : str, p ≠ []) [lit "X();"] ∧
  applyPatches docA ([lit "X();"] ++ [] :: [lit "Y();"])
  = applyPatches docA [lit "X();"].
Proof.
  split; [by constructor|].
  destruct (empty_fragment_halts docA [lit "X();"] [lit "Y();"])
    as (_ & _ & _ & H & _); [by constructor | exact H].
Defined.

(** ** Execution and the whole pipeline *)

Section Run.

Context {Value : Type}.
Variable readFile : str → completion str.
Variable runInNewContext :
  str → gmap str (handle (Value := Value)) → nat
  → script_result (Value := Value).

Lemma bind_fulfilled {A B : Type} (m : Async A) (f : A → Async B) r a r' :
  m r = (Fulfilled a, r') → (m ≫= f) r = f a r'.
Proof. intros H. unfold mbind, Async_bind. by rewrite H. Qed.

Lemma await_normal {A : Type} (call : M A) r a r' :
  call r = (Normal a, r') → await call r = (Fulfilled a, r').
Proof. intros H. unfold await. by rewrite H. Qed.

(** [executePatched] hands the text to the VM with the fixed timeout 5000;
    it wraps the message of what the VM throws, and ends as the value
    returned settles. *)
Lemma executePatched_spec patchedContent context r :
  executePatched runInNewContext patchedContent context r
  = (executed (runInNewContext patchedContent (makeSandbox context) 5000), r).
Proof.
  unfold executePatched, executed, try_await, readMessage, reject.
  unfold mbind, Async_bind.
  destruct (runInNewContext _ _ _) as [result|error]; [done|].
  by destruct (messageOf error).
Qed.

Lemma runWithPatches_spec filePath config context r patchResult r' :
  loadAndPatch (Value := Value) readFile filePath config r
  = (Normal patchResult, r') →
  runWithPatches readFile runInNewContext filePath config context r
  = (executed_outcome runInNewContext patchResult context, r').
Proof.
  intros H. unfold runWithPatches.
  erewrite bind_fulfilled by (apply await_normal; exact H).
  unfold executed_outcome. destruct (hasErrors patchResult); [done|].
  unfold try_await. unfold mbind at 1, Async_bind at 1.
  rewrite executePatched_spec.
  destruct (executed _) as [result|error|]; [done| |done].
  unfold recorded, readMessage, mbind, Async_bind.
  by destruct (messageOf error).
Qed.


End Run.

(** ** The flag [preserveOriginal] *)

(** C5, as the claim states it, fails: with [preserveOriginal: false] the
    outcome still holds the text read. *)
Lemma preserveOriginal_counterexample :
  ∃ res : PatchResult (Value := str),
    loadAndPatch (one_file two_markers) (lit "main.ts")
      (sample_config (Some false)) (constant_source 0)
    = (Normal res, constant_source 0) ∧
    originalFile res = two_markers ∧ two_markers ≠ [] ∧
    enabled (preserveOriginal (sample_config (Some false))) = false.
Proof. eexists. repeat split; try reflexivity. discriminate. Qed.

(** C5 (amended): [preserveOriginal] is never read.  The outcome of
    [loadAndPatch] and of [runWithPatches] is the same whatever the flag,
    patched text and [patchesApplied] included, and whenever the file is
    read the outcome holds the text read as [originalFile]. *)
Theorem preserveOriginal_ignored {Value : Type}
    (readFile : str → completion str)
    (runInNewContext : str → gmap str handle → nat → script_result)
    (filePath : str) (config : PatchConfig) (flag : option bool)
    (context : gmap str Value) (r : Random.source) :
  loadAndPatch (Value := Value) readFile filePath
    (with_preserveOriginal flag config) r
  = loadAndPatch (Value := Value) readFile filePath config r ∧
  runWithPatches readFile runInNewContext filePath
    (with_preserveOriginal flag config) context r
  = runWithPatches readFile runInNewContext filePath config context r ∧
  match readFile filePath with
  | Normal content =>
      ∃ (res : PatchResult (Value := Value)) r',
        loadAndPatch (Value := Value) readFile filePath config r
        = (Normal res, r') ∧
        originalFile res = content
  | Throw _ => True
  end.
Proof.
  split; [reflexivity|]. split; [reflexivity|].
  destruct (readFile filePath) as [content|message] eqn:Hread; [|done].
  destruct (decide (countMarkers content = 0)) as [H0|H0].
  - eexists _, _. split; [by apply loadAndPatch_no_markers|done].
  - destruct (loadAndPatch_markers (Value := Value) readFile filePath config
                r content Hread H0) as (combined & r1 & plan & r2 & _ & _ & H).
    eexists _, _. split; [exact H|done].
Qed.

(** ** Decoys and the shuffle in the plan *)

(** C8: with [addFakePatches] set, the plan before the optional shuffle is
    the real fragments in their order followed by exactly as many decoys as
    the count asked for, every decoy a non-empty string, and the decoy
    generator returns (it does not throw).  In [loadAndPatch] on a document
    with markers the count asked for is the marker count of that document,
    and the plan that is applied is that combined plan, ordered once. *)
Theorem decoy_count {Value : Type} (readFile : str → completion str)
    (filePath : str) (config : PatchConfig) (markerCount : nat)
    (r : Random.source) :
  enabled (addFakePatches config) = true →
  ∃ fakes r1,
    generateFakePatches markerCount r = (Normal fakes, r1) ∧
    length fakes = markerCount ∧
    Forall (λ p : str, p ≠ []) fakes ∧
    preparePatches config markerCount r
    = (Normal (patches config ++ fakes), r1) ∧
    match readFile filePath with
    | Normal content =>
        markerCount = countMarkers content → markerCount ≠ 0 →
        ∃ plan r2,
          orderPatches config (patches config ++ fakes) r1
          = (Normal plan, r2) ∧
          plan ≡ₚ patches config ++ fakes ∧
          (enabled (randomizeOrder config) = false
           → plan = patches config ++ fakes) ∧
          loadAndPatch (Value := Value) readFile filePath config r
          = (Normal (patched_outcome content plan), r2)
    | Throw _ => True
    end.
Proof.
  intros Hfake. exists (decoys r markerCount), (after_generate markerCount r).
  split; [apply generateFakePatches_spec|].
  split; [apply length_decoys|].
  split.
  { eapply Forall_impl; [apply decoys_truthy|]. by intros [|c p]. }
  assert (Hprep : preparePatches config markerCount r
            = (Normal (patches config ++ decoys r markerCount),
               after_generate markerCount r)).
  { by rewrite preparePatches_spec, Hfake. }
  split; [exact Hprep|].
  destruct (readFile filePath) as [content|message] eqn:Hread; [|done].
  intros -> Hcount.
  destruct (loadAndPatch_markers (Value := Value) readFile filePath config r
              content Hread Hcount)
    as (combined & r1 & plan & r2 & H1 & H2 & H3).
  rewrite Hprep in H1. inversion H1; subst combined r1.
  destruct (orderPatches_spec config
              (patches config ++ decoys r (countMarkers content))
              (after_generate (countMarkers content) r))
    as (plan' & r2' & H2' & Hperm & Hid).
  rewrite H2 in H2'. inversion H2'; subst plan' r2'.
  exists plan, r2. repeat split; try done. intros Hoff. by apply Hid.
Qed.

Lemma decoy_count_witness :
  enabled (addFakePatches
             {| patches := [lit "X();"]; randomizeOrder := None;
                addFakePatches := Some true; preserveOriginal := None |})
  = true ∧
  ∃ fakes r1,
    generateFakePatches 2 (constant_source 0) = (Normal fakes, r1) ∧
    length fakes = 2.
Proof.
  split; [reflexivity|].
  destruct (decoy_count (Value := str) (one_file two_markers) (lit "main.ts")
              {| patches := [lit "X();"]; randomizeOrder := None;
                 addFakePatches := Some true; preserveOriginal := None |}
              2 (constant_source 0) eq_refl)
    as (fakes & r1 & H1 & H2 & _).
  by exists fakes, r1.
Defined.

(** C6, as the claim states it, fails: on two markers the plan of the
    fragment [X();] followed by the empty string fills one marker, and its
    shuffle, the empty string followed by [X();] (the exchange drawn when
    [Math.random] returns 0), fills none. *)
Lemma shuffle_count_counterexample :
  shuffleArray [lit "X();"; []] (constant_source 0)
  = (Normal [[]; lit "X();"], skip_numerators 1 (constant_source 0)) ∧
  (applyPatches two_markers [lit "X();"; []]).2 = 1 ∧
  (applyPatches two_markers [[]; lit "X();"]).2 = 0.
Proof. repeat split; reflexivity. Qed.

(** C6 (amended): with [randomizeOrder] set, the planner orders the combined
    plan by one call of [shuffleArray], which returns a permutation of the
    plan; for every document, when no element of the plan is the empty
    string, as many markers receive a fragment with the shuffled plan as
    with the plan itself (the smaller of the marker count and the plan
    length). *)
Theorem shuffle_law (config : PatchConfig) (plan : list str)
    (r : Random.source) :
  enabled (randomizeOrder config) = true →
  ∃ shuffled r',
    orderPatches config plan r = (Normal shuffled, r') ∧
    shuffleArray plan r = (Normal shuffled, r') ∧
    shuffled ≡ₚ plan ∧
    (Forall (λ p : str, p ≠ []) plan →
     ∀ content,
       (applyPatches content shuffled).2 = (applyPatches content plan).2 ∧
       (applyPatches content shuffled).2
       = countMarkers content `min` length plan).
Proof.
  intros Hon. destruct (shuffleArray_spec plan r) as (shuffled & Hs & Hperm).
  exists shuffled, (skip_numerators (length plan - 1) r).
  split; [unfold orderPatches; by rewrite Hon|].
  split; [done|]. split; [done|].
  intros Hplan content.
  assert (Hsh : Forall (λ p : str, p ≠ []) shuffled) by by rewrite Hperm.
  apply truthy_nonempty, live_prefix_all in Hplan, Hsh.
  rewrite !applyPatches_spec, Hplan, Hsh. simpl.
  by rewrite (Permutation_length Hperm).
Qed.

Lemma shuffle_law_witness :
  enabled (randomizeOrder
             {| patches := []; randomizeOrder := Some true;
                addFakePatches := None; preserveOriginal := None |}) = true ∧
  ∃ shuffled r',
    shuffleArray [lit "X();"; lit "Y();"] (constant_source 0)
    = (Normal shuffled, r') ∧
    shuffled ≡ₚ [lit "X();"; lit "Y();"].
Proof.
  split; [reflexivity|].
  destruct (shuffle_law
              {| patches := []; randomizeOrder := Some true;
                 addFakePatches := None; preserveOriginal := None |}
              [lit "X();"; lit "Y();"] (constant_source 0) eq_refl)
    as (shuffled & r' & _ & H1 & H2 & _).
  by exists shuffled, r'.
Defined.

(** ** Texts of tokens are injective *)

Section Tokens.

Lemma hex_digit_inj d1 d2 :
  (d1 < 16)%N → (d2 < 16)%N → hex_digit d1 = hex_digit d2 → d1 = d2.
Proof.
  unfold hex_digit. intros H1 H2.
  destruct (N.ltb_spec d1 10), (N.ltb_spec d2 10); lia.
Qed.

Lemma toHex_inj bs1 bs2 :
  Forall (λ b, (b < 256)%N) bs1 → Forall (λ b, (b < 256)%N) bs2 →
  toHex bs1 = toHex bs2 → bs1 = bs2.
Proof.
  intros H1. revert bs2.
  induction H1 as [|b1 bs1 Hb1 _ IH]; intros bs2 H2 Heq.
  - by destruct H2.
  - destruct H2 as [|b2 bs2 Hb2 H2]; [done|].
    unfold toHex in Heq. simpl in Heq. inversion Heq as [[Hhi Hlo Hrest]].
    apply hex_digit_inj in Hhi;
      [|apply N.Div0.div_lt_upper_bound; lia..].
    apply hex_digit_inj in Hlo; [|apply N.mod_lt; lia..].
    f_equal.
    + rewrite (N.div_mod b1 16), (N.div_mod b2 16) by lia. congruence.
    + by apply IH.
Qed.

Lemma length_toHex bs : length (toHex bs) = 2 * length bs.
Proof.
  induction bs as [|b bs IH]; [done|].
  change (toHex (b :: bs))
    with (hex_digit (b / 16)%N :: hex_digit (b mod 16)%N :: toHex bs).
  simpl. rewrite IH. lia.
Qed.

Lemma uint_units_inj d1 d2 : uint_units d1 = uint_units d2 → d1 = d2.
Proof.
  revert d2. induction d1; intros [] H; simpl in H; try done;
    inversion H; f_equal; auto.
Qed.

Lemma numberToString_inj n1 n2 :
  numberToString n1 = numberToString n2 → n1 = n2.
Proof.
  intros H. apply uint_units_inj in H.
  rewrite <- (DecimalNat.Unsigned.of_to n1), <- (DecimalNat.Unsigned.of_to n2).
  by rewrite H.
Qed.

Lemma bytes_at_lt r off k : Forall (λ b, (b < 256)%N) (bytes_at r off k).
Proof.
  unfold bytes_at. apply Forall_fmap, Forall_forall. intros i _. simpl.
  by apply N.mod_lt.
Qed.

Lemma length_bytes_at r off k : length (bytes_at r off k) = k.
Proof. unfold bytes_at. by rewrite length_fmap, length_seq. Qed.

End Tokens.

(** ** When two calls of the decoy generator agree *)

Section Freshness.

Lemma fake_templates_texts h0 h1 h2 t h4 :
  fake_templates h0 h1 h2 t h4
  = template_texts (toHex h0) (toHex h1) (toHex h2) (numberToString t)
                   (toHex h4).
Proof. done. Qed.

Lemma template_texts_eq x0 x1 x2 x3 x4 y0 y1 y2 y3 y4 j1 j2 :
  length x1 = length y1 → j1 < 5 → j2 < 5 →
  template_at (template_texts x0 x1 x2 x3 x4) j1
  = template_at (template_texts y0 y1 y2 y3 y4) j2 →
  j1 = j2 ∧
  match j1 with
  | 0 => x0 = y0
  | 1 => x1 = y1 ∧ x2 = y2
  | 2 => True
  | 3 => x3 = y3
  | _ => x4 = y4
  end.
Proof.
  intros Hlen H1 H2.
  assert (j1 = 0 ∨ j1 = 1 ∨ j1 = 2 ∨ j1 = 3 ∨ j1 = 4)
    as [->|[->|[->|[->| ->]]]] by lia;
    (assert (j2 = 0 ∨ j2 = 1 ∨ j2 = 2 ∨ j2 = 3 ∨ j2 = 4)
      as [->|[->|[->|[->| ->]]]] by lia);
    unfold template_at, template_texts; simpl; intros H;
    try discriminate H; (split; [done|]).
  - inversion H as [H']. by apply app_inv_tail in H'.
  - inversion H as [H']. apply app_inj_1 in H' as [-> H']; [|done].
    inversion H' as [H'']. by apply app_inv_tail in H''.
  - done.
  - inversion H as [H']. by apply app_inv_tail in H'.
  - inversion H as [H']. by apply app_inv_tail in H'.
Qed.

Lemma template_texts_ext x0 x1 x2 x3 x4 y0 y1 y2 y3 y4 j :
  match j with
  | 0 => x0 = y0
  | 1 => x1 = y1 ∧ x2 = y2
  | 2 => True
  | 3 => x3 = y3
  | _ => x4 = y4
  end →
  template_at (template_texts x0 x1 x2 x3 x4) j
  = template_at (template_texts y0 y1 y2 y3 y4) j.
Proof.
  do 5 (destruct j as [|j]; [intros H; try destruct H; by subst|]).
  done.
Qed.

Lemma template_at_eq r1 r2 j1 j2 :
  j1 < 5 → j2 < 5 →
  template_at (templates_of r1) j1 = template_at (templates_of r2) j2
  ↔ j1 = j2 ∧ same_tokens r1 r2 j1.
Proof.
  intros H1 H2. split.
  - unfold templates_of. rewrite !fake_templates_texts. intros H.
    assert (Hlen : length (toHex (bytes_at r1 4 2))
                   = length (toHex (bytes_at r2 4 2)))
      by by rewrite !length_toHex, !length_bytes_at.
    destruct (template_texts_eq _ _ _ _ _ _ _ _ _ _ _ _ Hlen H1 H2 H)
      as [-> H'].
    clear H. rename H' into H. split; [done|].
    assert (j2 = 0 ∨ j2 = 1 ∨ j2 = 2 ∨ j2 = 3 ∨ j2 = 4)
      as [->|[->|[->|[->| ->]]]] by lia; simpl.
    + apply toHex_inj in H; auto using bytes_at_lt.
    + destruct H as [Ha Hb].
      apply toHex_inj in Ha, Hb; auto using bytes_at_lt.
    + done.
    + by apply numberToString_inj.
    + apply toHex_inj in H; auto using bytes_at_lt.
  - intros [-> H]. unfold templates_of. rewrite !fake_templates_texts.
    apply template_texts_ext.
    assert (j2 = 0 ∨ j2 = 1 ∨ j2 = 2 ∨ j2 = 3 ∨ j2 = 4)
      as [->|[->|[->|[->| ->]]]] by lia; unfold same_tokens in H.
    + by rewrite H.
    + by destruct H as [-> ->].
    + done.
    + by rewrite H.
    + by rewrite H.
Qed.

Lemma decoys_eq r1 r2 (js1 js2 : list nat) :
  Forall (λ j, j < 5) js1 → Forall (λ j, j < 5) js2 →
  template_at (templates_of r1) <$> js1
  = template_at (templates_of r2) <$> js2
  ↔ js1 = js2 ∧ Forall (same_tokens r1 r2) js1.
Proof.
  intros H1. revert js2.
  induction H1 as [|j1 js1 Hj1 _ IH]; intros js2 H2.
  - destruct js2; simpl; split; try done. by intros [? _].
  - destruct H2 as [|j2 js2 Hj2 H2]; simpl.
    + split; [done|]. by intros [? _].
    + split.
      * intros H. inversion H as [[Hhead Htail]].
        apply template_at_eq in Hhead as [-> Hsame]; try done.
        apply IH in Htail as [-> Hall]; try done.
        split; [done|]. by constructor.
      * intros [Heq Hall]. inversion Heq; subst.
        inversion Hall as [|? ? Hsame Hall']; subst. f_equal.
        -- by apply template_at_eq.
        -- by apply IH.
Qed.

End Freshness.

(** C3, as the claim states it, fails: when every draw of the loop falls on
    the third template, which carries no token, two calls one after the
    other yield the same sequence although the tokens they instantiate
    differ. *)
Lemma decoy_freshness_counterexample :
  ∃ fakes,
    generateFakePatches 1 (constant_source (2 ^ 52))
    = (Normal fakes, after_generate 1 (constant_source (2 ^ 52))) ∧
    generateFakePatches 1 (after_generate 1 (constant_source (2 ^ 52)))
    = (Normal fakes,
       after_generate 1 (after_generate 1 (constant_source (2 ^ 52)))) ∧
    templates_of (constant_source (2 ^ 52))
    ≠ templates_of (after_generate 1 (constant_source (2 ^ 52))).
Proof.
  exists [lit "if (Math.random() > 0.5) { console.log(" ++ [DQ]
            ++ lit "Fake condition" ++ [DQ] ++ lit "); }"].
  rewrite !generateFakePatches_spec.
  split; [f_equal; f_equal; by vm_compute|].
  split; [f_equal; f_equal; by vm_compute|].
  vm_compute. discriminate.
Qed.

(** C3 (amended): each call of the decoy generator instantiates the tokens
    of the five templates once, then draws [n] templates; it always returns
    [n] fragments.  Two calls yield the same sequence exactly when they draw
    the same templates in the same order and, for every template drawn, the
    tokens the two calls instantiated for it are the same (the third
    template has no token, so its draws always agree). *)
Theorem decoy_freshness (n : nat) (r1 r2 : Random.source) :
  ∃ fakes1 fakes2 r1' r2',
    generateFakePatches n r1 = (Normal fakes1, r1') ∧
    generateFakePatches n r2 = (Normal fakes2, r2') ∧
    length fakes1 = n ∧ length fakes2 = n ∧
    fakes1 = template_at (templates_of r1) <$> drawn r1 n ∧
    (fakes1 = fakes2
     ↔ drawn r1 n = drawn r2 n ∧ Forall (same_tokens r1 r2) (drawn r1 n)).
Proof.
  eexists _, _, _, _.
  split; [apply generateFakePatches_spec|].
  split; [apply generateFakePatches_spec|].
  split; [apply length_generateFakePatches|].
  split; [apply length_generateFakePatches|].
  split; [done|].
  apply decoys_eq; apply Forall_picks_lt; lia.
Qed.

(** ** The batch *)

Section Batch.

Context {Value : Type}.
Variable readFile : str → completion str.
Variable runInNewContext :
  str → gmap str (handle (Value := Value)) → nat
  → script_result (Value := Value).
Variable config : PatchConfig.
Variable context : gmap str Value.

Lemma loadAndPatch_plain filePath r :
  enabled (addFakePatches config) = false →
  enabled (randomizeOrder config) = false →
  loadAndPatch (Value := Value) readFile filePath config r
  = (Normal (plain_outcome readFile config filePath), r).
Proof.
  intros Hfake Hshuffle. unfold plain_outcome.
  destruct (readFile filePath) as [content|message] eqn:Hread.
  - case_bool_decide as H0.
    + by apply loadAndPatch_no_markers.
    + destruct (loadAndPatch_markers (Value := Value) readFile filePath
                  config r content Hread H0)
        as (combined & r1 & plan & r2 & H1 & H2 & H3).
      rewrite preparePatches_spec, Hfake in H1. inversion H1; subst.
      unfold orderPatches in H2. rewrite Hshuffle in H2.
      inversion H2; subst. exact H3.
  - by apply loadAndPatch_unreadable.
Qed.


(** What a turn of the loop stores: the outcome of the pipeline, or, when
    the pipeline is rejected with a value whose message can be read, the
    outcome with the one error "Batch processing error: ...". *)
Lemma batch_turn_spec filePath r :
  batch_turn readFile runInNewContext config context filePath r
  = match runWithPatches readFile runInNewContext filePath config context r
    with
    | (Fulfilled res, r1) => (Fulfilled res, r1)
    | (Rejected error, r1) =>
        (match messageOf error with
         | inl message =>
             Fulfilled (failed_outcome
                          (lit "Batch processing error: " ++ message))
         | inr raised => Rejected raised
         end, r1)
    | (Pending, r1) => (Pending, r1)
    end.
Proof.
  unfold batch_turn, try_await.
  destruct (runWithPatches _ _ _ _ _ r) as [[res|error|] r1]; [done| |done].
  unfold readMessage, mbind, Async_bind. by destruct (messageOf error).
Qed.

(** The loop of [batchProcess] goes on after a turn that has stored an
    outcome, and ends as the turn ends otherwise. *)
Lemma batch_loop_cons filePath rest results r :
  batch_loop readFile runInNewContext (filePath :: rest) config context
    results r
  = match batch_turn readFile runInNewContext config context filePath r with
    | (Fulfilled res, r1) =>
        batch_loop readFile runInNewContext rest config context
          (<[filePath := res]> results) r1
    | (Rejected error, r1) => (Rejected error, r1)
    | (Pending, r1) => (Pending, r1)
    end.
Proof.
  rewrite batch_turn_spec. simpl. unfold try_await.
  unfold mbind at 1, Async_bind at 1. unfold mbind at 1, Async_bind at 1.
  destruct (runWithPatches _ _ _ _ _ r) as [[res|error|] r1]; [done| |done].
  unfold readMessage, mbind, Async_bind. by destruct (messageOf error).
Qed.

(** When the loop returns a map: the paths it was given have been added to
    the map, the other entries are as they were, and what stands under a
    path given is what a turn for that path has stored. *)
Lemma batch_loop_fulfilled filePaths results r results' r' :
  batch_loop readFile runInNewContext filePaths config context results r
  = (Fulfilled results', r') →
  dom results' = dom results ∪ list_to_set filePaths ∧
  (∀ filePath, filePath ∉ filePaths →
               results' !! filePath = results !! filePath) ∧
  ∀ filePath res, results' !! filePath = Some res →
    results !! filePath = Some res ∨
    (filePath ∈ filePaths ∧
     ∃ r0 r1, batch_turn readFile runInNewContext config context filePath r0
              = (Fulfilled res, r1)).
Proof.
  revert results r. induction filePaths as [|p rest IH]; intros results r H.
  - simpl in H. inversion H; subst. split; [set_solver|]. split; [done|].
    intros filePath res Hres. by left.
  - rewrite batch_loop_cons in H.
    destruct (batch_turn _ _ _ _ p r) as [[res0|error|] r1] eqn:Hturn;
      [|done|done].
    destruct (IH _ _ H) as (Hdom & Hother & Hentry).
    split; [rewrite Hdom, dom_insert_L; set_solver|]. split.
    + intros q Hq. apply not_elem_of_cons in Hq as [Hne Hq].
      rewrite Hother by done. by rewrite lookup_insert_ne.
    + intros filePath res Hres.
      destruct (Hentry filePath res Hres) as [Hold|[Hin Hrun]].
      * destruct (decide (filePath = p)) as [->|Hne].
        -- rewrite lookup_insert_eq in Hold. inversion Hold; subst res0.
           right. split; [apply elem_of_cons; by left|]. by exists r, r1.
        -- rewrite lookup_insert_ne in Hold by done. by left.
      * right. split; [apply elem_of_cons; by right|done].
Qed.





End Batch.

(** C9 fails on the code.  Two files are given with one fragment: [a.ts]
    is a marker alone, which the fragment replaces, and [b.ts] has no
    marker.  Run alone, [b.ts] gets the outcome that reports no marker.
    When the fragment is a promise that never settles, the call of
    [executePatched] for [a.ts] never settles, since the value returned by
    the script leaves the [try] without an [await] and the timeout bounds
    the run of the script only: [batchProcess] never returns, and [b.ts]
    gets no outcome.  When the fragment is a promise rejected with an object
    whose [message] throws [null], the rejection passes the [try] of
    [executePatched], the catch clauses of [runWithPatches] and of
    [batchProcess] throw as they read the message, and [batchProcess] is
    rejected: no map is returned. *)
Lemma batch_not_isolated :
  runWithPatches two_files promise_vm (lit "b.ts")
    (script_config (lit "new Promise(() => {})")) ∅ (constant_source 0)
  = (Fulfilled (no_markers_outcome (lit "1 + 1")), constant_source 0) ∧
  batchProcess two_files promise_vm [lit "a.ts"; lit "b.ts"]
    (script_config (lit "new Promise(() => {})")) ∅ (constant_source 0)
  = (Pending, constant_source 0) ∧
  batchProcess two_files promise_vm [lit "a.ts"; lit "b.ts"]
    (script_config
       (lit "Promise.reject({ get message() { throw null } })"))
    ∅ (constant_source 0)
  = (Rejected
       (Error (lit "Cannot read properties of null (reading 'message')")),
     constant_source 0).
Proof. split; [|split]; by vm_compute. Qed.

(** The partial fill in the pipeline: without decoys and shuffle, a plan of
    non-empty fragments shorter than the marker count is applied whole, and
    [patchesApplied] is its length. *)
Corollary partial_fill_pipeline {Value : Type}
    (readFile : str → completion str) (filePath : str) (config : PatchConfig)
    (content : str) (r : Random.source) :
  readFile filePath = Normal content →
  enabled (addFakePatches config) = false →
  enabled (randomizeOrder config) = false →
  Forall (λ p : str, p ≠ []) (patches config) →
  length (patches config) < countMarkers content →
  ∃ res : PatchResult (Value := Value),
    loadAndPatch readFile filePath config r = (Normal res, r) ∧
    originalFile res = content ∧
    patchedFile res = fill (patches config) 0 (pieces content) ∧
    patchesApplied res = length (patches config) ∧
    errors res = Some [].
Proof.
  intros Hread Hfake Hshuffle Hplan Hshort.
  apply truthy_nonempty, live_prefix_all in Hplan.
  exists (patched_outcome content (patches config)).
  rewrite (loadAndPatch_plain readFile config filePath r Hfake Hshuffle).
  unfold plain_outcome. rewrite Hread.
  rewrite bool_decide_eq_false_2 by lia.
  unfold patched_outcome. simpl. rewrite applyPatches_spec, Hplan. simpl.
  repeat split; try done. lia.
Qed.

(** The batch of the specification: three identities, one of which fails
    to load. *)
Example batch_three :
  match (batchProcess three_files (clocked_vm (λ _, Some 1))
           [lit "a.ts"; lit "b.ts"; lit "c.ts"] (sample_config None) ∅
           (constant_source 0)).1 with
  | Fulfilled results =>
      size results = 3 ∧
      results !! lit "a.ts" = individually (lit "a.ts") ∧
      results !! lit "c.ts" = individually (lit "c.ts") ∧
      results !! lit "b.ts"
      = Some (failed_outcome (lit "Failed to load file: ENOENT"))
  | _ => False
  end.
Proof. vm_compute. repeat split; reflexivity. Qed.

(** ** The timeout of the execution *)





(** ** Indentation *)

Section Indentation.

Lemma ends_line_app s t : t ≠ [] → ends_line t → ends_line (s ++ t).
Proof.
  intros Ht H. unfold ends_line in *.
  destruct t as [|c t] using rev_ind; [done|].
  rewrite app_assoc, last_snoc. by rewrite last_snoc in H.
Qed.

Lemma last_unit_app prev s t :
  last_unit prev (s ++ t) = last_unit (last_unit prev s) t.
Proof.
  unfold last_unit. destruct t as [|c t] using rev_ind.
  - by rewrite app_nil_r.
  - by rewrite app_assoc, !last_snoc.
Qed.

Lemma last_unit_None s : last_unit None s = last s.
Proof. unfold last_unit. by destruct (last s). Qed.

(** Group 1 cut at its last line terminator: the blank lines taken above the
    marker line, and the leading spaces of the marker line itself. *)
Lemma indent_last_line (indent : str) :
  ∃ above w, indent = above ++ w ∧ ends_line above ∧
             Forall (λ c, is_line_terminator c = false) w.
Proof.
  induction indent as [|c s (above & w & -> & Habove & Hw)].
  - by exists [], [].
  - destruct above as [|a above].
    + destruct (is_line_terminator c) eqn:Hc.
      * exists [c], w. split; [done|]. split; [exact Hc|done].
      * exists [], (c :: w). split; [done|]. split; [done|]. by constructor.
    + exists (c :: a :: above), w. split; [done|]. split; [|done].
      by apply (ends_line_app [c]).
Qed.

(** A match starts at the start of a line. *)
Lemma segments_marker_start pos prev s ps before index indent m after :
  segments pos prev s ps →
  ps = before ++ Hit index indent m :: after →
  at_line_start (last_unit prev (render before)) = true.
Proof.
  intros Hseg. revert before.
  induction Hseg as [| ? ? ? ? ? ? ? IH | ? ? ind trailing ? ? ? ? ? ? ? IH];
    intros before Heq.
  - by destruct before.
  - destruct before as [|p before]; [done|]. inversion Heq; subst.
    simpl. rewrite last_unit_cons. by apply IH.
  - destruct before as [|p before]; inversion Heq; subst; [done|].
    simpl. rewrite last_unit_app. by apply IH.
Qed.


Lemma join_lf_cons l ls : ls ≠ [] → join_lf (l :: ls) = l ++ LF :: join_lf ls.
Proof. by destruct ls. Qed.



End Indentation.



(** The blank line above the marker is part of group 1, and comes back in
    front of every line of the fragment. *)
Example blank_line_above :
  applyPatches blank_above [lit "x" ++ [LF] ++ lit "y"]
  = (lit "a" ++ [LF; LF] ++ lit "  x" ++ [LF; LF] ++ lit "  y" ++ [LF]
       ++ lit "b", 1).
Proof. reflexivity. Qed.

(** ** Marker lines and matches *)

Section MarkerLines.

(** A match ends at the end of a line. *)
Lemma segments_marker_end pos prev s ps before index indent m after :
  segments pos prev s ps →
  ps = before ++ Hit index indent m :: after →
  at_line_end (render after) = true.
Proof.
  intros Hseg. revert before.
  induction Hseg as [| ? ? ? ? ? ? ? IH
                     | ? ? ind trailing rest ? ? ? ? Hend Hrest IH];
    intros before Heq.
  - by destruct before.
  - destruct before as [|p before]; [done|]. inversion Heq; subst.
    by eapply IH.
  - destruct before as [|p before]; inversion Heq; subst; [|by eapply IH].
    by rewrite (segments_render _ _ _ _ Hrest).
Qed.

(** Trailing spaces cut at their first line terminator. *)
Lemma trailing_first_line (t : str) :
  ∃ t1 t2, t = t1 ++ t2 ∧ Forall (λ c, is_line_terminator c = false) t1 ∧
           (t2 = [] ∨ at_line_end t2 = true ∧ t2 ≠ []).
Proof.
  induction t as [|c t (t1 & t2 & -> & H1 & H2)].
  - exists [], []. split; [done|]. split; [done|]. by left.
  - destruct (is_line_terminator c) eqn:Hc.
    + exists [], (c :: t1 ++ t2). split; [done|]. split; [done|]. by right.
    + exists (c :: t1), t2. split; [done|]. split; [by constructor|done].
Qed.

Lemma markers_cut ps :
  markers ps ≠ [] →
  ∃ before index indent m after, ps = before ++ Hit index indent m :: after.
Proof.
  induction ps as [|[c|index indent m] ps IH]; intros H; [done| |].
  - destruct (IH H) as (before & i & ind & m & after & ->).
    by exists (Lit c :: before), i, ind, m, after.
  - by exists [], index, indent, m, ps.
Qed.

(** Every match holds a marker line. *)
Lemma marker_line_of_match content before index indent m after :
  pieces content = before ++ Hit index indent m :: after →
  marker_line_in content.
Proof.
  intros Hcut. pose proof (pieces_segments content) as Hseg.
  rewrite Hcut in Hseg.
  destruct (segments_marker _ _ _ _ _ _ _ _ _ Hseg eq_refl)
    as (_ & Hind & trailing & Hm & Htr).
  pose proof (segments_marker_end _ _ _ _ _ _ _ _ _ Hseg eq_refl) as Hend.
  pose proof (segments_marker_start _ _ _ _ _ _ _ _ _ Hseg eq_refl) as Hstart.
  rewrite last_unit_None in Hstart.
  destruct (indent_last_line indent) as (above & w & -> & Habove & Hw).
  destruct (trailing_first_line trailing) as (t1 & t2 & -> & Ht1 & Ht2).
  apply Forall_app in Hind as [_ Hws]. apply Forall_app in Htr as [Ht1s _].
  exists (render before ++ above), w, t1, (t2 ++ render after).
  split.
  { rewrite <- (segments_render _ _ _ _ (pieces_segments content)), Hcut.
    rewrite render_app. simpl. rewrite Hm. by rewrite <- !app_assoc. }
  split.
  { destruct above as [|a above]; [by rewrite app_nil_r|].
    by apply ends_line_app. }
  split.
  { destruct Ht2 as [->|[Ht2 Hne]]; [done|]. by destruct t2. }
  split; by apply Forall_and.
Qed.

(** A document without a marker line has no match. *)
Lemma no_marker_line_no_match content :
  ¬ marker_line_in content → countMarkers content = 0.
Proof.
  intros Hnone. rewrite countMarkers_markers.
  destruct (markers (pieces content)) as [|mk mks] eqn:Hm; [done|].
  destruct (markers_cut (pieces content))
    as (before & i & ind & m & after & Hcut); [by rewrite Hm|].
  destruct Hnone. by eapply marker_line_of_match.
Qed.

(** The matcher finds every marker line. *)
Lemma re_tail_complete t rest :
  Forall (λ c, is_space c = true) t → at_line_end rest = true →
  is_Some (re_tail (t ++ rest)).
Proof.
  intros Ht Hrest. induction Ht as [|c t Hc _ IH].
  - destruct rest as [|c rest]; [done|]. simpl in Hrest.
    change (re_tail ([] ++ c :: rest))
      with (match (if is_space c then re_tail rest else None) with
            | Some n => Some (S n)
            | None => if is_line_terminator c then Some 0 else None
            end).
    rewrite Hrest. by destruct (if is_space c then re_tail rest else None).
  - change (re_tail ((c :: t) ++ rest))
      with (match (if is_space c then re_tail (t ++ rest) else None) with
            | Some n => Some (S n)
            | None => if is_line_terminator c then Some 0 else None
            end).
    rewrite Hc. by destruct IH as [n ->].
Qed.

Lemma strip_prefix_app p s : strip_prefix p (p ++ s) = Some s.
Proof.
  induction p as [|a p IH]; simpl; [by destruct s|].
  by rewrite N.eqb_refl.
Qed.

Lemma re_body_cons c s :
  re_body (c :: s)
  = match (if is_space c then re_body s else None) with
    | Some (indent, n) => Some (c :: indent, S n)
    | None => (λ n, ([], n)) <$> re_token (c :: s)
    end.
Proof. done. Qed.

Lemma re_body_complete w t rest :
  Forall (λ c, is_space c = true) w →
  Forall (λ c, is_space c = true) t → at_line_end rest = true →
  is_Some (re_body (w ++ CAR_MARKER ++ t ++ rest)).
Proof.
  intros Hw Ht Hrest.
  assert (Htoken : is_Some (re_token (CAR_MARKER ++ t ++ rest))).
  { unfold re_token. rewrite strip_prefix_app.
    by destruct (re_tail_complete t rest Ht Hrest) as [n ->]. }
  induction Hw as [|c w Hc _ IH].
  - destruct Htoken as [n Hn]. exists ([], n).
    change ([] ++ CAR_MARKER ++ t ++ rest)
      with (67%N :: lit "ar();" ++ t ++ rest).
    rewrite re_body_cons.
    change (67%N :: lit "ar();" ++ t ++ rest) with (CAR_MARKER ++ t ++ rest).
    change (is_space 67) with false. cbv iota. by rewrite Hn.
  - change ((c :: w) ++ CAR_MARKER ++ t ++ rest)
      with (c :: w ++ CAR_MARKER ++ t ++ rest).
    rewrite re_body_cons, Hc. by destruct IH as [[indent n] ->].
Qed.

(** Without a match, the pattern fails at every position. *)
Lemma segments_no_match pos prev s ps :
  segments pos prev s ps → markers ps = [] →
  ∀ pre suf, s = pre ++ suf → suf ≠ [] → re_at (last_unit prev pre) suf = None.
Proof.
  induction 1 as [| ? ? c s ps Hre Hseg IH | ]; intros Hm pre suf Hs Hsuf.
  - by destruct pre, suf.
  - destruct pre as [|a pre].
    + simpl in Hs. by subst suf.
    + inversion Hs; subst. rewrite last_unit_cons. by apply IH.
  - done.
Qed.

(** A document with a marker line has a match. *)
Lemma marker_line_match content :
  marker_line_in content → countMarkers content ≠ 0.
Proof.
  intros (pre & w & t & rest & Hs & Hpre & Hrest & Hw & Ht) Hzero.
  rewrite countMarkers_markers in Hzero. apply length_zero_iff_nil in Hzero.
  pose proof (segments_no_match _ _ _ _ (pieces_segments content) Hzero
                pre (w ++ CAR_MARKER ++ t ++ rest) Hs) as Hnone.
  rewrite last_unit_None in Hnone. unfold re_at in Hnone.
  rewrite Hpre in Hnone.
  apply Forall_and in Hw as [Hw _]. apply Forall_and in Ht as [Ht _].
  destruct (re_body_complete w t rest Hw Ht Hrest) as [x Hx].
  rewrite Hx in Hnone. discriminate Hnone. by destruct w.
Qed.

(** The matches of the pattern are there exactly when the document has a
    marker line. *)
Lemma countMarkers_zero_iff content :
  countMarkers content = 0 ↔ ¬ marker_line_in content.
Proof.
  split.
  - intros Hzero Hline. by apply marker_line_match in Hline.
  - apply no_marker_line_no_match.
Qed.

End MarkerLines.

(** ** Zero markers *)

(** C7: when the document read has no marker line (no line made of the
    token with only spaces around it, so that the pattern has no match),
    [loadAndPatch] returns (it does not throw) the outcome whose original and
    patched texts are the document, with [patchesApplied = 0] and the one
    error "No Car(); markers found in file"; [runWithPatches] returns the
    same outcome, without executing anything; no random value is drawn. *)
Theorem zero_markers_outcome {Value : Type} (readFile : str → completion str)
    (runInNewContext : str → gmap str handle → nat → script_result)
    (filePath : str) (config : PatchConfig) (context : gmap str Value)
    (content : str) (r : Random.source) :
  readFile filePath = Normal content →
  ¬ marker_line_in content →
  countMarkers content = 0 ∧
  loadAndPatch (Value := Value) readFile filePath config r
  = (Normal {| originalFile := content;
               patchedFile := content;
               patchesApplied := 0;
               executionResult := None;
               errors := Some [lit "No Car(); markers found in file"] |}, r) ∧
  runWithPatches readFile runInNewContext filePath config context r
  = await (loadAndPatch (Value := Value) readFile filePath config) r.
Proof.
  intros Hread Hnone. apply no_marker_line_no_match in Hnone as Hzero.
  pose proof (loadAndPatch_no_markers (Value := Value) readFile filePath
                config r content Hread Hzero) as H.
  split; [exact Hzero|]. split; [exact H|].
  rewrite (runWithPatches_spec _ _ _ _ _ _ _ _ H).
  by rewrite (await_normal _ _ _ _ H).
Qed.

Lemma zero_markers_outcome_witness :
  one_file (lit "x = Car();") (lit "main.ts") = Normal (lit "x = Car();") ∧
  ¬ marker_line_in (lit "x = Car();") ∧
  runWithPatches (one_file (lit "x = Car();")) (clocked_vm (λ _, Some 0))
    (lit "main.ts") (sample_config None) ∅ (constant_source 0)
  = await (loadAndPatch (one_file (lit "x = Car();")) (lit "main.ts")
             (sample_config None)) (constant_source 0).
Proof.
  assert (Hnone : ¬ marker_line_in (lit "x = Car();"))
    by (apply countMarkers_zero_iff; reflexivity).
  split; [reflexivity|]. split; [exact Hnone|].
  destruct (zero_markers_outcome (one_file (lit "x = Car();"))
              (clocked_vm (λ _, Some 0)) (lit "main.ts") (sample_config None)
              ∅ (lit "x = Car();") (constant_source 0) eq_refl Hnone)
    as (_ & _ & H).
  exact H.
Defined.

(** * Further properties of the code *)

(** ** [scanMarkers] *)

Section Scan.

(** The test of [scanMarkers] on a numbered line. *)
Lemma markerLines_from k (lines : list str) :
  let out :=
    omap (λ '(index, line),
            if bool_decide (trim line = CAR_MARKER) then Some (index + 1)
            else None)
         (imap (λ index line, (k + index, line)) lines) in
  Forall (λ n, k < n) out ∧ StronglySorted lt out ∧
  ∀ n, n ∈ out ↔ ∃ i line, lines !! i = Some line ∧ n = k + i + 1 ∧
                           trim line = CAR_MARKER.
Proof.
  revert k. induction lines as [|l lines IH]; intros k out.
  - split; [constructor|]. split; [constructor|].
    intros n. split; [by intros ?%elem_of_nil|]. by intros (i & line & ? & _).
  - assert (Hext : imap (λ index line, (k + index, line)) (l :: lines)
                   = (k + 0, l)
                     :: imap (λ index line, (S k + index, line)) lines).
    { rewrite imap_cons. f_equal. apply imap_ext. intros i x _. simpl.
      f_equal. lia. }
    destruct (IH (S k)) as (Hlow & Hsorted & Hmem).
    set (rest := omap (λ '(index, line),
                         if bool_decide (trim line = CAR_MARKER)
                         then Some (index + 1) else None)
                      (imap (λ index line, (S k + index, line)) lines)) in *.
    assert (Hout : out = if bool_decide (trim l = CAR_MARKER)
                         then (k + 0 + 1) :: rest else rest).
    { unfold out. rewrite Hext. simpl. by case_bool_decide. }
    assert (Hlow' : Forall (λ n, k < n) rest).
    { eapply Forall_impl; [exact Hlow|]. simpl. lia. }
    rewrite Hout. case_bool_decide as Hl.
    + split; [constructor; [lia|done]|]. split.
      { constructor; [done|]. eapply Forall_impl; [exact Hlow|]. simpl. lia. }
      intros n. rewrite elem_of_cons, Hmem. split.
      * intros [->|(i & line & Hi & -> & Ht)].
        -- exists 0, l. by repeat split.
        -- exists (S i), line. repeat split; [done|lia|done].
      * intros ([|i] & line & Hi & -> & Ht).
        -- left. lia.
        -- right. exists i, line. repeat split; [done|lia|done].
    + split; [done|]. split; [done|].
      intros n. rewrite Hmem. split.
      * intros (i & line & Hi & -> & Ht).
        exists (S i), line. repeat split; [done|lia|done].
      * intros ([|i] & line & Hi & -> & Ht).
        -- simpl in Hi. inversion Hi; subst. done.
        -- exists i, line. repeat split; [done|lia|done].
Qed.

End Scan.

(** X1: [scanMarkers] throws exactly when the file cannot be read, with the
    message "Scan failed: " followed by the message of the read error.
    Otherwise it returns the locations and their number: the locations are
    strictly increasing 1-based line numbers, and a number is listed
    exactly when the line of that number, cut at line feeds, is the marker
    token once trimmed. *)
Theorem scanMarkers_locations (readFile : str → completion str)
    (filePath : str) (r : Random.source) :
  match readFile filePath with
  | Normal content =>
      ∃ locations,
        scanMarkers readFile filePath r
        = (Normal (length locations, locations), r) ∧
        StronglySorted lt locations ∧
        ∀ n, n ∈ locations
             ↔ 1 ≤ n ∧ ∃ line, split_lf content !! (n - 1) = Some line ∧
                               trim line = CAR_MARKER
  | Throw message =>
      scanMarkers readFile filePath r
      = (Throw (lit "Scan failed: " ++ message), r)
  end.
Proof.
  destruct (readFile filePath) as [content|message] eqn:Hread.
  - exists (markerLines content). split.
    { unfold scanMarkers, try_catch, mbind, M_bind. by rewrite Hread. }
    destruct (markerLines_from 0 (split_lf content)) as (_ & Hsorted & Hmem).
    split; [exact Hsorted|].
    intros n. unfold markerLines.
    etrans; [apply Hmem|]. split.
    + intros (i & line & Hi & -> & Ht). split; [lia|].
      exists line. split; [|done]. by replace (0 + i + 1 - 1) with i by lia.
    + intros (Hn & line & Hi & Ht). exists (n - 1), line.
      repeat split; [done|lia|done].
  - unfold scanMarkers, try_catch, mbind, M_bind, throw. by rewrite Hread.
Qed.

(** ** The outcomes of the pipeline *)

Section Outcomes.

Context {Value : Type}.
Variable readFile : str → completion str.
Variable runInNewContext :
  str → gmap str (handle (Value := Value)) → nat
  → script_result (Value := Value).

Lemma length_live_prefix plan : length (live_prefix plan) ≤ length plan.
Proof.
  induction plan as [|p plan IH]; simpl; [done|].
  destruct (truthy p); simpl; lia.
Qed.

Lemma fill_nil ps : fill [] 0 ps = render ps.
Proof. apply fill_past. simpl. lia. Qed.

Lemma render_pieces content : render (pieces content) = content.
Proof. eapply segments_render, pieces_segments. Qed.

(** The plan that [loadAndPatch] applies on a document with markers, and
    the source it leaves. *)
Lemma loadAndPatch_plan filePath config r content :
  readFile filePath = Normal content → countMarkers content ≠ 0 →
  ∃ plan r',
    loadAndPatch (Value := Value) readFile filePath config r
    = (Normal (patched_outcome content plan), r') ∧
    plan ≡ₚ patches config
            ++ (if enabled (addFakePatches config)
                then decoys r (countMarkers content) else []) ∧
    (enabled (randomizeOrder config) = false →
     plan = patches config
            ++ (if enabled (addFakePatches config)
                then decoys r (countMarkers content) else [])).
Proof.
  intros Hread Hcount.
  destruct (loadAndPatch_markers (Value := Value) readFile filePath config r
              content Hread Hcount)
    as (combined & r1 & plan & r2 & H1 & H2 & H3).
  destruct (orderPatches_spec config combined r1)
    as (plan' & r2' & H2' & Hperm & Hid).
  rewrite H2 in H2'. inversion H2'; subst plan' r2'.
  rewrite preparePatches_spec in H1.
  exists plan, r2. split; [exact H3|].
  destruct (enabled (addFakePatches config)); inversion H1; subst combined r1.
  - split; [done|]. intros Hoff. by apply Hid.
  - rewrite app_nil_r. split; [done|]. intros Hoff. by apply Hid.
Qed.

End Outcomes.

(** X2: how [runWithPatches] ends.  A file that cannot be read gives the
    outcome with the one error "Failed to load file: ..." and empty texts; a
    file without a match of the marker pattern gives its content back with
    the one error "No Car(); markers found in file"; in both cases nothing
    is executed and no random value is drawn.  Otherwise the patched text
    is handed to the VM, and the call ends by what the VM gives.  A value
    returned, or the value that a promise returned is fulfilled with, is the
    execution result, with an empty error list.  A promise returned that
    never settles keeps [runWithPatches] from ever returning.  A value
    thrown is recorded as the one error "Execution error: Execution failed:
    ..." with its message, but the value that a promise returned is
    rejected with is recorded as "Execution error: ..." alone, since it is
    not caught by [executePatched].  A value whose message cannot be read
    ([null], [undefined]) makes the catch clause that reads it throw in its
    turn: thrown by the script it is recorded as the [TypeError] of that
    read, and rejected by a promise it makes [runWithPatches] throw. *)
Theorem runWithPatches_outcome {Value : Type}
    (readFile : str → completion str)
    (runInNewContext : str → gmap str handle → nat → script_result)
    (filePath : str) (config : PatchConfig) (context : gmap str Value)
    (r : Random.source) :
  match readFile filePath with
  | Throw message =>
      runWithPatches readFile runInNewContext filePath config context r
      = (Fulfilled (failed_outcome (lit "Failed to load file: " ++ message)),
         r)
  | Normal content =>
      if bool_decide (countMarkers content = 0) then
        runWithPatches readFile runInNewContext filePath config context r
        = (Fulfilled (no_markers_outcome content), r)
      else
        ∃ plan r',
          loadAndPatch (Value := Value) readFile filePath config r
          = (Normal (patched_outcome content plan), r') ∧
          runWithPatches readFile runInNewContext filePath config context r
          = (match runInNewContext (applyPatches content plan).1
                     (makeSandbox context) 5000 with
             | Returns (Fulfilled result) =>
                 Fulfilled (with_result (patched_outcome content plan) result)
             | Returns Pending => Pending
             | Returns (Rejected error) =>
                 recorded (patched_outcome content plan) error
             | Throws error =>
                 match messageOf error with
                 | inl message =>
                     recorded (patched_outcome content plan)
                       (Error (lit "Execution failed: " ++ message))
                 | inr raised => recorded (patched_outcome content plan) raised
                 end
             end, r')
  end.
Proof.
  destruct (readFile filePath) as [content|message] eqn:Hread.
  - case_bool_decide as Hcount.
    + by rewrite (runWithPatches_spec readFile runInNewContext _ _ _ _ _ _
                    (loadAndPatch_no_markers readFile filePath config r
                       content Hread Hcount)).
    + destruct (loadAndPatch_plan (Value := Value) readFile filePath config r
                  content Hread Hcount) as (plan & r' & Hload & _).
      exists plan, r'. split; [exact Hload|].
      rewrite (runWithPatches_spec readFile runInNewContext _ _ _ _ _ _ Hload).
      unfold executed_outcome, executed. simpl.
      destruct (runInNewContext _ _ _) as [[result|error|]|error];
        [done|done|done|].
      by destruct (messageOf error).
  - by rewrite (runWithPatches_spec readFile runInNewContext _ _ _ _ _ _
                  (loadAndPatch_unreadable readFile filePath config r message
                     Hread)).
Qed.

(** What the catch clause of [runWithPatches] records, by the kind of the
    value caught. *)
Example recorded_values :
  recorded sample_patched (Error (lit "boom"))
  = Fulfilled {| originalFile := two_markers;
                 patchedFile := patchedFile sample_patched;
                 patchesApplied := 1;
                 executionResult := None;
                 errors := Some [lit "Execution error: boom"] |} ∧
  recorded sample_patched Null
  = Rejected
      (Error (lit "Cannot read properties of null (reading 'message')")) ∧
  recorded sample_patched (Faulty Null) = Rejected Null.
Proof. split; [|split]; reflexivity. Qed.

(** X3: what [loadAndPatch] reports about a file it could read.  The
    original text is the content read; [patchesApplied] is at most the
    number of matches of the marker pattern and at most the size of the
    plan (the real fragments, and as many decoys as matches when decoys
    are asked for); and when no fragment was applied the patched text is
    the content read, unchanged.  A file that cannot be read gives the
    outcome with the one error "Failed to load file: ...". *)
Theorem loadAndPatch_applied_bounds {Value : Type}
    (readFile : str → completion str) (filePath : str) (config : PatchConfig)
    (r : Random.source) :
  ∃ (res : PatchResult (Value := Value)) r',
    loadAndPatch readFile filePath config r = (Normal res, r') ∧
    match readFile filePath with
    | Normal content =>
        originalFile res = content ∧
        patchesApplied res ≤ countMarkers content ∧
        patchesApplied res
        ≤ length (patches config)
          + (if enabled (addFakePatches config) then countMarkers content
             else 0) ∧
        (patchesApplied res = 0 → patchedFile res = content)
    | Throw message =>
        res = failed_outcome (lit "Failed to load file: " ++ message)
    end.
Proof.
  destruct (readFile filePath) as [content|message] eqn:Hread.
  - destruct (decide (countMarkers content = 0)) as [Hcount|Hcount].
    + eexists _, _. split; [by apply loadAndPatch_no_markers|].
      simpl. repeat split; lia.
    + destruct (loadAndPatch_plan (Value := Value) readFile filePath config r
                  content Hread Hcount) as (plan & r' & Hload & Hperm & _).
      eexists _, r'. split; [exact Hload|].
      simpl. rewrite applyPatches_spec. simpl.
      pose proof (length_live_prefix plan) as Hlive.
      apply Permutation_length in Hperm. rewrite length_app in Hperm.
      assert (length (if enabled (addFakePatches config)
                      then decoys r (countMarkers content) else [])
              = if enabled (addFakePatches config)
                then countMarkers content else 0) as Hdecoys.
      { destruct (enabled _); [apply length_decoys|done]. }
      repeat split; [lia|lia|].
      intros Hzero.
      assert (live_prefix plan = []) as ->.
      { apply length_zero_iff_nil. lia. }
      by rewrite fill_nil, render_pieces.
  - eexists _, _. split; [by apply loadAndPatch_unreadable|done].
Qed.

(** ** Decoys in the patched text *)

Section Decoys.

(** [fill] reads the fragments of the markers it meets only. *)
Lemma fill_ext frags frags' i ps :
  (∀ k, i ≤ k < i + length (markers ps) → frags !! k = frags' !! k) →
  fill frags i ps = fill frags' i ps.
Proof.
  revert i. induction ps as [|[c|index indent m] ps IH]; intros i H; simpl.
  - done.
  - f_equal. apply IH. exact H.
  - simpl in H. rewrite (H i) by lia. f_equal. apply IH.
    intros k Hk. apply H. lia.
Qed.

Lemma Forall_truthy_Permutation (plan plan' : list str) :
  plan ≡ₚ plan' → Forall (λ p, truthy p = true) plan' →
  Forall (λ p, truthy p = true) plan.
Proof. intros Hperm H. by rewrite Hperm. Qed.

End Decoys.

(** X4: with [addFakePatches] set and no empty string among the real
    fragments, [loadAndPatch] fills every marker, whether or not the plan
    is shuffled: [patchesApplied] is the number of matches of the marker
    pattern, and on a document with markers the patched text is the
    document with its i-th marker replaced by the i-th element of a plan
    that is a permutation of the real fragments followed by the decoys
    (that list itself without the shuffle), the plan having a non-empty
    fragment for every marker. *)
Theorem decoys_fill_every_marker {Value : Type}
    (readFile : str → completion str) (filePath : str) (config : PatchConfig)
    (content : str) (r : Random.source) :
  readFile filePath = Normal content →
  enabled (addFakePatches config) = true →
  Forall (λ p : str, p ≠ []) (patches config) →
  ∃ (res : PatchResult (Value := Value)) r',
    loadAndPatch readFile filePath config r = (Normal res, r') ∧
    patchesApplied res = countMarkers content ∧
    (countMarkers content ≠ 0 →
     errors res = Some [] ∧
     ∃ plan,
       plan ≡ₚ patches config ++ decoys r (countMarkers content) ∧
       (enabled (randomizeOrder config) = false →
        plan = patches config ++ decoys r (countMarkers content)) ∧
       patchedFile res = fill plan 0 (pieces content) ∧
       ∀ i, i < countMarkers content → ∃ p, plan !! i = Some p ∧ p ≠ []).
Proof.
  intros Hread Hfake Hreal.
  destruct (decide (countMarkers content = 0)) as [Hcount|Hcount].
  { eexists _, _. split; [by apply loadAndPatch_no_markers|].
    split; [by rewrite Hcount|done]. }
  destruct (loadAndPatch_plan (Value := Value) readFile filePath config r
              content Hread Hcount) as (plan & r' & Hload & Hperm & Hid).
  rewrite Hfake in Hperm, Hid.
  assert (Hall : Forall (λ p, truthy p = true) plan).
  { eapply Forall_truthy_Permutation; [exact Hperm|].
    apply Forall_app. split; [by apply truthy_nonempty|apply decoys_truthy]. }
  assert (Hlen : countMarkers content ≤ length plan).
  { apply Permutation_length in Hperm.
    rewrite Hperm, length_app, length_decoys. lia. }
  exists (patched_outcome content plan), r'. split; [exact Hload|].
  simpl. rewrite applyPatches_spec, (live_prefix_all _ Hall). simpl.
  split; [lia|]. intros _. split; [done|].
  exists plan. repeat split; [done|done|].
  intros i Hi. destruct (lookup_lt_is_Some_2 plan i) as [p Hp]; [lia|].
  exists p. split; [done|].
  rewrite Forall_lookup in Hall. specialize (Hall i p Hp).
  by destruct p.
Qed.

Lemma decoys_fill_every_marker_witness :
  ∃ (res : PatchResult (Value := str)) r',
    loadAndPatch (one_file two_markers) (lit "main.ts")
      {| patches := [lit "X();"]; randomizeOrder := Some true;
         addFakePatches := Some true; preserveOriginal := None |}
      (constant_source 0) = (Normal res, r') ∧
    patchesApplied res = 2.
Proof.
  destruct (decoys_fill_every_marker (Value := str) (one_file two_markers)
              (lit "main.ts")
              {| patches := [lit "X();"]; randomizeOrder := Some true;
                 addFakePatches := Some true; preserveOriginal := None |}
              two_markers (constant_source 0))
    as (res & r' & Hload & Happlied & _).
  - reflexivity.
  - reflexivity.
  - by repeat constructor.
  - exists res, r'. split; [exact Hload|exact Happlied].
Defined.

(** X5: when the plan is not shuffled and the real fragments, none of them
    empty, are at least as many as the matches of the marker pattern, the
    flag [addFakePatches] has no effect on the patched text: whether or
    not decoys are generated, the i-th marker receives the i-th real
    fragment and no decoy is written. *)
Theorem decoys_unused_when_plan_covers {Value : Type}
    (readFile : str → completion str) (filePath : str) (config : PatchConfig)
    (content : str) (r : Random.source) :
  readFile filePath = Normal content →
  enabled (randomizeOrder config) = false →
  Forall (λ p : str, p ≠ []) (patches config) →
  countMarkers content ≤ length (patches config) →
  ∃ (res : PatchResult (Value := Value)) r',
    loadAndPatch readFile filePath config r = (Normal res, r') ∧
    originalFile res = content ∧
    patchedFile res = fill (patches config) 0 (pieces content) ∧
    patchesApplied res = countMarkers content.
Proof.
  intros Hread Hshuffle Hreal Hcover.
  destruct (decide (countMarkers content = 0)) as [Hcount|Hcount].
  { eexists _, _. split; [by apply loadAndPatch_no_markers|].
    simpl. split; [done|]. split; [|done].
    rewrite <- (render_pieces content) at 1. rewrite <- fill_nil.
    apply fill_ext. intros k Hk.
    rewrite <- countMarkers_markers, Hcount in Hk. lia. }
  destruct (loadAndPatch_plan (Value := Value) readFile filePath config r
              content Hread Hcount) as (plan & r' & Hload & _ & Hid).
  specialize (Hid Hshuffle). subst plan.
  eexists _, r'. split; [exact Hload|].
  simpl. rewrite applyPatches_spec. simpl.
  rewrite live_prefix_all; last first.
  { apply Forall_app. split; [by apply truthy_nonempty|].
    destruct (enabled (addFakePatches config));
      [apply decoys_truthy|constructor]. }
  split; [done|]. split.
  - apply fill_ext. intros k Hk. rewrite <- countMarkers_markers in Hk.
    apply lookup_app_l. lia.
  - rewrite length_app. lia.
Qed.

Lemma decoys_unused_when_plan_covers_witness :
  ∃ (res : PatchResult (Value := str)) r',
    loadAndPatch (one_file two_markers) (lit "main.ts")
      {| patches := [lit "X();"; lit "Y();"]; randomizeOrder := None;
         addFakePatches := Some true; preserveOriginal := None |}
      (constant_source 0) = (Normal res, r') ∧
    patchedFile res = lit "X();" ++ [LF] ++ lit "Y();".
Proof.
  destruct (decoys_unused_when_plan_covers (Value := str)
              (one_file two_markers) (lit "main.ts")
              {| patches := [lit "X();"; lit "Y();"]; randomizeOrder := None;
                 addFakePatches := Some true; preserveOriginal := None |}
              two_markers (constant_source 0))
    as (res & r' & Hload & _ & Hfile & _).
  - reflexivity.
  - reflexivity.
  - by repeat constructor.
  - vm_compute. lia.
  - exists res, r'. split; [exact Hload|]. rewrite Hfile. by vm_compute.
Defined.

(** ** The sandbox of the execution *)


(** ** The entries of a batch *)

(** X7: when [batchProcess] returns a map, the keys of the map are the
    paths given, and what stands under a path is what a turn of the loop
    for that path has stored: the outcome of [runWithPatches] when it
    returned one, or, when [runWithPatches] threw a value whose message can
    be read, the outcome with empty texts and the one error
    "Batch processing error: ..." with that message. *)
Theorem batch_entries_outcomes {Value : Type}
    (readFile : str → completion str)
    (runInNewContext : str → gmap str handle → nat → script_result)
    (filePaths : list str) (config : PatchConfig) (context : gmap str Value)
    (r : Random.source) (results : gmap str (PatchResult (Value := Value)))
    (r' : Random.source) :
  batchProcess readFile runInNewContext filePaths config context r
  = (Fulfilled results, r') →
  dom results = list_to_set filePaths ∧
  ∀ filePath res, results !! filePath = Some res →
    filePath ∈ filePaths ∧
    ∃ r0 r1,
      runWithPatches readFile runInNewContext filePath config context r0
      = (Fulfilled res, r1) ∨
      ∃ error message,
        runWithPatches readFile runInNewContext filePath config context r0
        = (Rejected error, r1) ∧
        messageOf error = inl message ∧
        res = failed_outcome (lit "Batch processing error: " ++ message).
Proof.
  intros Hrun.
  destruct (batch_loop_fulfilled readFile runInNewContext config context
              filePaths ∅ r results r' Hrun) as (Hdom & _ & Hentry).
  split; [rewrite Hdom; set_solver|].
  intros filePath res Hres.
  destruct (Hentry filePath res Hres) as [Hold|[Hin (r0 & r1 & Hturn)]];
    [by rewrite lookup_empty in Hold|].
  split; [done|]. exists r0, r1.
  rewrite batch_turn_spec in Hturn.
  destruct (runWithPatches _ _ _ _ _ r0) as [[res0|error|] r2]; [| |done].
  - left. by inversion Hturn.
  - right. destruct (messageOf error) as [message|raised] eqn:Hmessage;
      [|done].
    exists error, message. by inversion Hturn.
Qed.

Lemma batch_entries_outcomes_witness :
  ∃ results,
    batchProcess two_files promise_vm [lit "a.ts"; lit "b.ts"]
      (script_config (lit "Promise.reject(null)")) ∅ (constant_source 0)
    = (Fulfilled results, constant_source 0) ∧
    dom results = list_to_set [lit "a.ts"; lit "b.ts"].
Proof.
  set (results :=
         match (batchProcess two_files promise_vm [lit "a.ts"; lit "b.ts"]
                  (script_config (lit "Promise.reject(null)")) ∅
                  (constant_source 0)).1 with
         | Fulfilled results => results
         | _ => ∅
         end).
  assert (Hrun : batchProcess two_files promise_vm [lit "a.ts"; lit "b.ts"]
                   (script_config (lit "Promise.reject(null)")) ∅
                   (constant_source 0)
                 = (Fulfilled results, constant_source 0))
    by (vm_compute; reflexivity).
  exists results. split; [exact Hrun|].
  destruct (batch_entries_outcomes two_files promise_vm
              [lit "a.ts"; lit "b.ts"]
              (script_config (lit "Promise.reject(null)")) ∅
              (constant_source 0) results (constant_source 0) Hrun)
    as [Hdom _].
  exact Hdom.
Defined.

(** The catch clause of the loop is taken: a promise rejected with [null]
    makes [runWithPatches] throw the [TypeError] of the read of its
    message, which the batch stores under the path. *)
Example batch_catch_taken :
  runWithPatches two_files promise_vm (lit "a.ts")
    (script_config (lit "Promise.reject(null)")) ∅ (constant_source 0)
  = (Rejected
       (Error (lit "Cannot read properties of null (reading 'message')")),
     constant_source 0) ∧
  match (batchProcess two_files promise_vm [lit "a.ts"; lit "b.ts"]
           (script_config (lit "Promise.reject(null)")) ∅
           (constant_source 0)).1 with
  | Fulfilled results =>
      results !! lit "a.ts"
      = Some (failed_outcome
                (lit "Batch processing error: Cannot read properties of null (reading 'message')")) ∧
      results !! lit "b.ts" = Some (no_markers_outcome (lit "1 + 1"))
  | _ => False
  end.
Proof. split; [reflexivity|]. vm_compute. split; reflexivity. Qed.



(** ** The routes *)

Section RouteLemmas.

Lemma length_filter_split {A : Type} (P : A → bool) (l : list A) :
  length (filter (λ x, P x = false) l) + length (filter (λ x, P x = true) l)
  = length l.
Proof.
  induction l as [|x l IH]; [done|].
  rewrite !filter_cons. destruct (P x) eqn:HP.
  - rewrite decide_False by done. rewrite decide_True by done.
    simpl. lia.
  - rewrite decide_True by done. rewrite decide_False by done.
    simpl. lia.
Qed.

Lemma length_remove_dups_le (l : list str) :
  length (remove_dups l) ≤ length l.
Proof.
  induction l as [|x l IH]; simpl; [done|].
  destruct (decide_rel _ x l); simpl; lia.
Qed.

Lemma length_remove_dups_NoDup (l : list str) :
  length (remove_dups l) = length l ↔ NoDup l.
Proof.
  induction l as [|x l IH]; simpl.
  - split; [constructor|done].
  - pose proof (length_remove_dups_le l) as Hle.
    destruct (decide_rel _ x l) as [Hin|Hin]; simpl.
    + split; [lia|]. intros H. by apply NoDup_cons in H as [? _].
    + split.
      * intros H. apply NoDup_cons. split; [done|]. apply IH. lia.
      * intros H. apply NoDup_cons in H as [_ H]. apply IH in H. lia.
Qed.

Lemma size_list_to_set_remove_dups (l : list str) :
  size (list_to_set l : gset str) = length (remove_dups l).
Proof.
  rewrite <- (size_list_to_set (C := gset str) (remove_dups l))
    by apply NoDup_remove_dups.
  f_equal. apply set_eq. intros x.
  by rewrite !elem_of_list_to_set, elem_of_remove_dups.
Qed.

End RouteLemmas.

(** X8: the answer of [POST /patch/scan].  Without a [filePath], or with
    the empty one, the status is 400 and nothing is read.  When the file
    cannot be read the status is 500, with the error "Scan failed" and the
    message "Scan failed: " followed by the message of the read error.
    Otherwise the status is 200 and the body carries the line numbers found
    by the scan and their number. *)
Theorem patchScan_answer (readFile : str → completion str)
    (filePath : option str) (now : str) (r : Random.source) :
  ∃ resp,
    Routes.patchScan readFile filePath now r = (Normal resp, r) ∧
    match filePath with
    | Some (c :: path) =>
        match readFile (c :: path) with
        | Normal content =>
            resp = {| Routes.status := 200;
                      Routes.json :=
                        Routes.Scanned
                          (length (markerLines content))
                          (markerLines content) now |}
        | Throw message =>
            resp = {| Routes.status := 500;
                      Routes.json :=
                        Routes.Failure (lit "Scan failed")
                          (Some (lit "Scan failed: " ++ message)) |}
        end
    | _ =>
        resp = {| Routes.status := 400;
                  Routes.json :=
                    Routes.Failure (lit "Missing required field: filePath")
                                   None |}
    end.
Proof.
  destruct filePath as [[|c path]|].
  - eexists. split; [reflexivity|done].
  - unfold Routes.patchScan, scanMarkers. simpl.
    unfold try_catch, mbind, M_bind, mret, M_ret, throw.
    destruct (readFile (c :: path)) as [content|message];
      eexists; (split; [reflexivity|done]).
  - eexists. split; [reflexivity|done].
Qed.

(** X10: the summary of [POST /patch/batch].  When [batchProcess] has
    returned a map for the array of paths, the field [total] of the summary
    that the handler builds is the length of the array, while [successful]
    and [failed] add up to the number of different paths in it, so that they
    add up to [total] exactly when no path is given twice.  The object
    [results] has the paths of the array as its keys, but for a path
    [__proto__], which the conversion of the map to an object loses. *)
Theorem patchBatch_summary {Value : Type} (readFile : str → completion str)
    (runInNewContext : str → gmap str handle → nat → script_result)
    (filePaths : list str) (config : PatchConfig) (context : gmap str Value)
    (r : Random.source)
    (batchResults : gmap str (PatchResult (Value := Value)))
    (r' : Random.source) :
  batchProcess readFile runInNewContext filePaths config context r
  = (Fulfilled batchResults, r') →
  let summary := Routes.batchSummary filePaths batchResults in
  Routes.total summary = length filePaths ∧
  Routes.successful summary + Routes.failed summary
  = length (remove_dups filePaths) ∧
  (Routes.successful summary + Routes.failed summary = Routes.total summary
   ↔ NoDup filePaths) ∧
  dom (Routes.results summary)
  = list_to_set filePaths ∖ {[lit "__proto__"]}.
Proof.
  intros Hrun.
  destruct (batch_loop_fulfilled readFile runInNewContext config context
              filePaths ∅ r batchResults r' Hrun) as (Hdom & _ & _).
  assert (Hsize : length (Routes.values batchResults)
                  = length (remove_dups filePaths)).
  { unfold Routes.values. rewrite length_fmap, length_map_to_list.
    rewrite <- size_list_to_set_remove_dups, <- size_dom.
    rewrite Hdom, dom_empty_L. f_equal. set_solver. }
  simpl. split; [done|].
  split; [by rewrite length_filter_split|].
  split.
  { rewrite length_filter_split, Hsize. apply length_remove_dups_NoDup. }
  unfold Routes.toObject. rewrite dom_delete_L, Hdom, dom_empty_L.
  set_solver.
Qed.

Lemma patchBatch_summary_witness :
  ∃ batchResults,
    batchProcess three_files (clocked_vm (λ _, Some 1))
      [lit "a.ts"; lit "b.ts"; lit "a.ts"] (sample_config None) ∅
      (constant_source 0) = (Fulfilled batchResults, constant_source 0) ∧
    Routes.total
      (Routes.batchSummary [lit "a.ts"; lit "b.ts"; lit "a.ts"] batchResults)
    = 3 ∧
    Routes.successful
      (Routes.batchSummary [lit "a.ts"; lit "b.ts"; lit "a.ts"] batchResults)
    + Routes.failed
        (Routes.batchSummary [lit "a.ts"; lit "b.ts"; lit "a.ts"]
           batchResults)
    = 2.
Proof.
  set (batchResults :=
         match (batchProcess three_files (clocked_vm (λ _, Some 1))
                  [lit "a.ts"; lit "b.ts"; lit "a.ts"] (sample_config None) ∅
                  (constant_source 0)).1 with
         | Fulfilled results => results
         | _ => ∅
         end).
  assert (Hrun : batchProcess three_files (clocked_vm (λ _, Some 1))
                   [lit "a.ts"; lit "b.ts"; lit "a.ts"] (sample_config None)
                   ∅ (constant_source 0)
                 = (Fulfilled batchResults, constant_source 0))
    by (vm_compute; reflexivity).
  exists batchResults. split; [exact Hrun|].
  destruct (patchBatch_summary three_files (clocked_vm (λ _, Some 1))
              [lit "a.ts"; lit "b.ts"; lit "a.ts"] (sample_config None) ∅
              (constant_source 0) batchResults (constant_source 0) Hrun)
    as (Htotal & Hsum & _).
  split; [exact Htotal|]. rewrite Hsum. by vm_compute.
Defined.

(** ** The lines of the decoys *)

Section DecoyLines.

Lemma split_lf_one_line (s : str) : Forall (λ c, c ≠ LF) s → split_lf s = [s].
Proof.
  induction 1 as [|c s Hc _ IH]; [done|].
  simpl. rewrite IH. by apply N.eqb_neq in Hc as ->.
Qed.

Lemma trim_unchanged (s : str) a z :
  head s = Some a → last s = Some z → is_space a = false →
  is_space z = false → trim s = s.
Proof.
  intros Hhead Hlast Ha Hz. unfold trim, trimEnd.
  assert (trimStart s = s) as ->.
  { destruct s as [|c s]; [done|]. simpl in Hhead. inversion Hhead; subst.
    simpl. by rewrite Ha. }
  rewrite <- (reverse_involutive s) at 2. f_equal.
  rewrite <- head_reverse in Hlast.
  destruct (reverse s) as [|c s']; [done|]. simpl in Hlast.
  inversion Hlast; subst. simpl. by rewrite Hz.
Qed.

(** A fragment of one line that is not blank is written behind the
    indentation of the marker. *)
Lemma indentPatch_one_line (indent p : str) :
  Forall (λ c, c ≠ LF) p → trim p ≠ [] → indentPatch indent p = indent ++ p.
Proof.
  intros Hline Hblank. unfold indentPatch. rewrite split_lf_one_line by done.
  simpl. by destruct (trim p).
Qed.

Lemma hex_digit_no_terminator d :
  (d < 16)%N → is_line_terminator (hex_digit d) = false.
Proof.
  intros Hd. apply bool_decide_eq_false_2.
  rewrite !elem_of_cons, elem_of_nil. unfold hex_digit.
  destruct (d <? 10)%N; lia.
Qed.

Lemma toHex_no_terminator bs :
  Forall (λ b, (b < 256)%N) bs →
  Forall (λ c, is_line_terminator c = false) (toHex bs).
Proof.
  induction 1 as [|b bs Hb _ IH]; [constructor|].
  change (toHex (b :: bs))
    with (hex_digit (b / 16)%N :: hex_digit (b mod 16)%N :: toHex bs).
  repeat constructor; [| |done]; apply hex_digit_no_terminator.
  - apply N.Div0.div_lt_upper_bound. lia.
  - by apply N.mod_lt.
Qed.

Lemma uint_units_no_terminator d :
  Forall (λ c, is_line_terminator c = false) (uint_units d).
Proof. induction d; simpl; constructor; done. Qed.

Lemma lit_no_terminator (l : str) :
  bool_decide (Forall (λ c, is_line_terminator c = false) l) = true →
  Forall (λ c, is_line_terminator c = false) l.
Proof. apply bool_decide_eq_true_1. Qed.

Lemma no_terminator_no_LF (l : str) :
  Forall (λ c, is_line_terminator c = false) l → Forall (λ c, c ≠ LF) l.
Proof. intros Hl. eapply Forall_impl; [exact Hl|]. by intros c Hc ->. Qed.

Lemma lit_no_LF (l : str) :
  bool_decide (Forall (λ c, c ≠ LF) l) = true → Forall (λ c, c ≠ LF) l.
Proof. apply bool_decide_eq_true_1. Qed.

(** The five templates are lines of text. *)
Lemma template_texts_lines x0 x1 x2 x3 x4 :
  Forall (λ c, is_line_terminator c = false) x0 →
  Forall (λ c, is_line_terminator c = false) x1 →
  Forall (λ c, is_line_terminator c = false) x2 →
  Forall (λ c, is_line_terminator c = false) x3 →
  Forall (λ c, is_line_terminator c = false) x4 →
  Forall plain_line (template_texts x0 x1 x2 x3 x4).
Proof.
  intros H0 H1 H2 H3 H4. unfold template_texts.
  repeat (apply Forall_cons; split); [..|by apply Forall_nil];
    (split;
     [ rewrite ?Forall_app; repeat split;
       first [ assumption | by apply lit_no_terminator ]
     | split;
       [ eapply trim_unchanged;
         [ reflexivity | rewrite ?last_app; reflexivity
         | reflexivity | reflexivity ]
       | split; intros H; apply (f_equal head) in H; vm_compute in H;
         discriminate H ] ]).
Qed.

End DecoyLines.

Lemma templates_of_lines r j :
  j < 5 → plain_line (template_at (templates_of r) j).
Proof.
  intros Hj. unfold templates_of. rewrite fake_templates_texts.
  pose proof (template_texts_lines
                (toHex (bytes_at r 0 4)) (toHex (bytes_at r 4 2))
                (toHex (bytes_at r 6 8)) (numberToString (pick r 1000 0))
                (toHex (bytes_at r 14 4))
                (toHex_no_terminator _ (bytes_at_lt _ _ _))
                (toHex_no_terminator _ (bytes_at_lt _ _ _))
                (toHex_no_terminator _ (bytes_at_lt _ _ _))
                (uint_units_no_terminator _)
                (toHex_no_terminator _ (bytes_at_lt _ _ _))) as Hall.
  unfold template_at.
  destruct (_ !! j) as [p|] eqn:Hp; simpl.
  - by eapply Forall_lookup_1.
  - apply lookup_ge_None in Hp. simpl in Hp. lia.
Qed.

(** X11: every decoy that [generateFakePatches] returns is one line of
    text: it holds no line terminator, has no space at its ends, is not
    empty and is not the marker token.  Written at a marker, a decoy is therefore
    that one line behind the indentation of the marker. *)
Theorem decoys_are_lines (count : nat) (r : Random.source) :
  ∃ fakes r',
    generateFakePatches count r = (Normal fakes, r') ∧
    Forall (λ decoy, plain_line decoy ∧
                     ∀ indent, indentPatch indent decoy = indent ++ decoy)
           fakes.
Proof.
  exists (decoys r count), (after_generate count r).
  split; [apply generateFakePatches_spec|].
  unfold decoys, drawn. apply Forall_fmap.
  eapply Forall_impl; [apply (Forall_picks_lt _ 5); lia|].
  intros j Hj. simpl.
  pose proof (templates_of_lines r j Hj) as Hline.
  split; [exact Hline|].
  destruct Hline as (Hlf & Htrim & Hne & _).
  intros indent. apply indentPatch_one_line; [|by rewrite Htrim].
  by apply no_terminator_no_LF.
Qed.

(** ** Markers without indentation *)

Section Lines.

Lemma split_lf_nonempty (s : str) : split_lf s ≠ [].
Proof.
  induction s as [|c s IH]; simpl; [done|].
  destruct (c =? LF)%N; [done|]. by destruct (split_lf s).
Qed.

(** Cutting a text at its line feeds and joining the lines gives the text
    back. *)
Lemma join_split_lf (s : str) : join_lf (split_lf s) = s.
Proof.
  induction s as [|c s IH]; [done|]. simpl.
  destruct (c =? LF)%N eqn:Hc.
  - apply N.eqb_eq in Hc as ->.
    rewrite join_lf_cons by apply split_lf_nonempty. by rewrite IH.
  - pose proof (split_lf_nonempty s) as Hne.
    destruct (split_lf s) as [|l [|l' ls]]; [done| |].
    + simpl in *. by rewrite IH.
    + rewrite join_lf_cons by done. rewrite join_lf_cons in IH by done.
      by rewrite <- IH.
Qed.

End Lines.

(** X12: a marker without indentation (the text of group 1 is empty)
    receives its fragment as it is, whatever the lines of the fragment. *)
Theorem indentPatch_no_indent (patch : str) : indentPatch [] patch = patch.
Proof.
  unfold indentPatch.
  rewrite <- (join_split_lf patch) at 2. f_equal.
  rewrite <- (list_fmap_id (split_lf patch)) at 2.
  apply list_fmap_ext. intros i line _. by destruct (truthy (trim line)).
Qed.

(** ** The scan and the pattern *)

Section Agreement.

Lemma trimStart_spaces (w x : str) :
  Forall (λ c, is_space c = true) w → trimStart (w ++ x) = trimStart x.
Proof. induction 1 as [|c w Hc _ IH]; [done|]. simpl. by rewrite Hc. Qed.

Lemma trimStart_cut (x : str) :
  ∃ w, x = w ++ trimStart x ∧ Forall (λ c, is_space c = true) w.
Proof.
  induction x as [|c x (w & Hx & Hw)]; [by exists []|].
  simpl. destruct (is_space c) eqn:Hc.
  - exists (c :: w). split; [by rewrite Hx at 1|by constructor].
  - by exists [].
Qed.

(** What [trim] takes away is white space. *)
Lemma trim_cut (x : str) :
  ∃ w t, x = w ++ trim x ++ t ∧ Forall (λ c, is_space c = true) w ∧
         Forall (λ c, is_space c = true) t.
Proof.
  destruct (trimStart_cut x) as (w & Hx & Hw).
  destruct (trimStart_cut (reverse (trimStart x))) as (t & Ht & Hts).
  exists w, (reverse t). split; [|split; [done|by apply Forall_reverse]].
  rewrite Hx at 1. f_equal. unfold trim, trimEnd.
  rewrite <- reverse_app, <- Ht. by rewrite reverse_involutive.
Qed.

Lemma trim_spaces (l : str) : Forall (λ c, is_space c = true) l → trim l = [].
Proof.
  intros Hl. unfold trim.
  rewrite <- (app_nil_r l), trimStart_spaces by done. done.
Qed.

Lemma trim_space_cons c (l : str) : is_space c = true → trim (c :: l) = trim l.
Proof. intros Hc. unfold trim. simpl. by rewrite Hc. Qed.

Lemma trim_token (t : str) :
  Forall (λ c, is_space c = true) t → trim (CAR_MARKER ++ t) = CAR_MARKER.
Proof.
  intros Ht. unfold trim, trimEnd.
  change (trimStart (CAR_MARKER ++ t)) with (CAR_MARKER ++ t).
  rewrite reverse_app, trimStart_spaces by by apply Forall_reverse.
  done.
Qed.

Lemma count_marker_lines_cons line lines :
  count_marker_lines (line :: lines)
  = (if decide (trim line = CAR_MARKER) then 1 else 0)
    + count_marker_lines lines.
Proof.
  unfold count_marker_lines. rewrite filter_cons.
  by destruct (decide (trim line = CAR_MARKER)).
Qed.

Lemma count_marker_lines_blank line lines :
  Forall (λ c, is_space c = true) line →
  count_marker_lines (line :: lines) = count_marker_lines lines.
Proof.
  intros Hline. rewrite count_marker_lines_cons, trim_spaces by done.
  by rewrite decide_False.
Qed.

Lemma split_lf_LF (s : str) : split_lf (LF :: s) = [] :: split_lf s.
Proof. done. Qed.

Lemma split_lf_other c (s : str) :
  c ≠ LF →
  ∃ l ls, split_lf s = l :: ls ∧ split_lf (c :: s) = (c :: l) :: ls.
Proof.
  intros Hc. pose proof (split_lf_nonempty s) as Hne.
  destruct (split_lf s) as [|l ls] eqn:Hs; [done|].
  exists l, ls. split; [done|]. simpl. rewrite Hs.
  by apply N.eqb_neq in Hc as ->.
Qed.

(** The first line of a text, and what is left of the text. *)
Lemma split_lf_first (s : str) l ls :
  split_lf s = l :: ls →
  ∃ rest, s = l ++ rest ∧ (rest = [] ∨ ∃ rest', rest = LF :: rest').
Proof.
  revert l ls. induction s as [|c s IH]; intros l ls Hs.
  - simpl in Hs. inversion Hs; subst. exists []. split; [done|by left].
  - destruct (decide (c = LF)) as [->|Hc].
    + rewrite split_lf_LF in Hs. inversion Hs; subst.
      exists (LF :: s). split; [done|]. right. by exists s.
    + destruct (split_lf_other c s Hc) as (l' & ls' & Hs' & Hcs).
      rewrite Hcs in Hs. inversion Hs; subst.
      destruct (IH l' ls Hs') as (rest & -> & Hrest).
      by exists rest.
Qed.

Lemma at_line_end_LF (rest : str) :
  lf_only rest → at_line_end rest = true →
  rest = [] ∨ ∃ rest', rest = LF :: rest'.
Proof.
  intros Honly Hend. destruct rest as [|c rest]; [by left|].
  right. exists rest. simpl in Hend.
  apply Forall_cons in Honly as [Hc _]. by rewrite (Hc Hend).
Qed.

(** A space in front of a text leaves the number of its marker lines as it
    is. *)
Lemma count_marker_lines_space c (s : str) :
  is_space c = true →
  count_marker_lines (split_lf (c :: s)) = count_marker_lines (split_lf s).
Proof.
  intros Hc. destruct (decide (c = LF)) as [->|Hne].
  - rewrite split_lf_LF. by apply count_marker_lines_blank.
  - destruct (split_lf_other c s Hne) as (l & ls & -> & ->).
    by rewrite !count_marker_lines_cons, trim_space_cons.
Qed.

Lemma count_marker_lines_spaces (w s : str) :
  Forall (λ c, is_space c = true) w →
  count_marker_lines (split_lf (w ++ s)) = count_marker_lines (split_lf s).
Proof.
  induction 1 as [|c w Hc _ IH]; [done|].
  change ((c :: w) ++ s) with (c :: w ++ s).
  by rewrite count_marker_lines_space.
Qed.

(** The lines of trailing spaces followed by the end of a line. *)
Lemma split_lf_trailing (t rest : str) :
  Forall (λ c, is_space c = true) t →
  rest = [] ∨ (∃ rest', rest = LF :: rest') →
  ∃ l ls, split_lf (t ++ rest) = l :: ls ∧
          Forall (λ c, is_space c = true) l ∧
          count_marker_lines ls = count_marker_lines (tail (split_lf rest)).
Proof.
  intros Ht Hrest. induction Ht as [|c t Hc _ (l & ls & Hs & Hl & Hls)].
  - destruct Hrest as [->|[rest' ->]].
    + by exists [], [].
    + exists [], (split_lf rest'). by rewrite split_lf_LF.
  - change ((c :: t) ++ rest) with (c :: t ++ rest).
    destruct (decide (c = LF)) as [->|Hne].
    + exists [], (l :: ls). rewrite split_lf_LF, Hs.
      split; [done|]. split; [done|].
      by rewrite count_marker_lines_blank.
    + destruct (split_lf_other c (t ++ rest) Hne) as (l' & ls' & Hs' & ->).
      rewrite Hs in Hs'. inversion Hs'; subst l' ls'.
      exists (c :: l), ls. split; [done|]. split; [by constructor|done].
Qed.

Lemma split_lf_prefix (p s : str) :
  Forall (λ c, c ≠ LF) p →
  ∃ l ls, split_lf s = l :: ls ∧ split_lf (p ++ s) = (p ++ l) :: ls.
Proof.
  induction 1 as [|c p Hc _ (l & ls & Hs & Hps)].
  - pose proof (split_lf_nonempty s) as Hne.
    destruct (split_lf s) as [|l ls] eqn:Hs; [done|]. by exists l, ls.
  - exists l, ls. split; [done|].
    change ((c :: p) ++ s) with (c :: p ++ s).
    destruct (split_lf_other c (p ++ s) Hc) as (l' & ls' & Hs' & ->).
    rewrite Hps in Hs'. by inversion Hs'; subst.
Qed.

(** The lines of a match and of what follows it. *)
Lemma count_marker_lines_match (indent trailing rest : str) :
  Forall (λ c, is_space c = true) indent →
  Forall (λ c, is_space c = true) trailing →
  rest = [] ∨ (∃ rest', rest = LF :: rest') →
  count_marker_lines (split_lf ((indent ++ CAR_MARKER ++ trailing) ++ rest))
  = S (count_marker_lines (tail (split_lf rest))).
Proof.
  intros Hindent Htrailing Hrest.
  rewrite <- !app_assoc, count_marker_lines_spaces by done.
  destruct (split_lf_trailing trailing rest Htrailing Hrest)
    as (l & ls & Hs & Hl & Hls).
  destruct (split_lf_prefix CAR_MARKER (trailing ++ rest))
    as (l' & ls' & Hs' & ->); [by apply lit_no_LF|].
  rewrite Hs in Hs'. inversion Hs'; subst l' ls'.
  rewrite count_marker_lines_cons, trim_token by done.
  rewrite decide_True by done. by rewrite Hls.
Qed.

(** After the end of a line the first line is empty. *)
Lemma count_marker_lines_rest (rest : str) (b : bool) :
  rest = [] ∨ (∃ rest', rest = LF :: rest') →
  count_marker_lines (if b then split_lf rest else tail (split_lf rest))
  = count_marker_lines (tail (split_lf rest)).
Proof.
  intros Hrest. destruct b; [|done].
  destruct Hrest as [->|[rest' ->]]; [done|].
  rewrite split_lf_LF. by apply count_marker_lines_blank.
Qed.

(** A line start at which the pattern fails is not the start of a marker
    line. *)
Lemma no_match_no_marker_line c (s l : str) ls :
  re_body (c :: s) = None → split_lf s = l :: ls →
  trim (c :: l) ≠ CAR_MARKER.
Proof.
  intros Hre Hs Htrim.
  destruct (split_lf_first s l ls Hs) as (rest & -> & Hrest).
  destruct (trim_cut (c :: l)) as (w & t & Hcut & Hw & Ht).
  rewrite Htrim in Hcut.
  destruct (re_body_complete w t rest Hw Ht) as [x Hx].
  { by destruct Hrest as [->|[rest' ->]]. }
  assert (c :: l ++ rest = w ++ CAR_MARKER ++ t ++ rest) as Heq.
  { change (c :: l ++ rest) with ((c :: l) ++ rest).
    rewrite Hcut. by rewrite <- !app_assoc. }
  rewrite Heq in Hre. by rewrite Hx in Hre.
Qed.

(** The matches of the pattern in a text that ends its lines with line
    feeds are as many as its marker lines, the current line being left out
    when the text starts inside a line. *)
Lemma segments_marker_lines pos prev s ps :
  segments pos prev s ps → lf_only s →
  length (markers ps)
  = count_marker_lines
      (if at_line_start prev then split_lf s else tail (split_lf s)).
Proof.
  induction 1 as [pos prev
                 |pos prev c s ps Hre Hseg IH
                 |pos prev indent trailing rest ps Hstart Hindent Htrailing
                    Hend Hseg IH]; intros Honly.
  - by destruct (at_line_start prev).
  - apply Forall_cons in Honly as [Hc Honly]. specialize (IH Honly).
    change (markers (Lit c :: ps)) with (markers ps). rewrite IH.
    destruct (decide (c = LF)) as [->|Hne].
    + rewrite split_lf_LF. change (at_line_start (Some LF)) with true.
      destruct (at_line_start prev); [|done].
      by rewrite count_marker_lines_blank.
    + assert (at_line_start (Some c) = false) as ->.
      { simpl. destruct (is_line_terminator c); [|done]. by destruct Hne, Hc. }
      destruct (split_lf_other c s Hne) as (l & ls & Hs & ->).
      rewrite Hs. simpl tail.
      unfold re_at in Hre. destruct (at_line_start prev); [|done].
      rewrite count_marker_lines_cons, decide_False; [done|].
      by eapply no_match_no_marker_line.
  - apply Forall_app in Honly as [_ Honly]. specialize (IH Honly).
    pose proof (at_line_end_LF rest Honly Hend) as Hrest.
    rewrite Hstart, count_marker_lines_match by done.
    change (markers (Hit pos indent (indent ++ CAR_MARKER ++ trailing) :: ps))
      with ((pos, indent, indent ++ CAR_MARKER ++ trailing) :: markers ps).
    simpl length. rewrite IH. by rewrite count_marker_lines_rest.
Qed.

Lemma length_markerLines_from k (lines : list str) :
  length (omap (λ '(index, line),
                  if bool_decide (trim line = CAR_MARKER)
                  then Some (index + 1) else None)
               (imap (λ index line, (k + index, line)) lines))
  = count_marker_lines lines.
Proof.
  revert k. induction lines as [|l lines IH]; intros k; [done|].
  rewrite imap_cons, count_marker_lines_cons. simpl.
  rewrite <- (IH (S k)).
  rewrite (imap_ext _ (λ index line, (S k + index, line)) lines); last first.
  { intros i x _. simpl. f_equal. lia. }
  case_bool_decide; [by rewrite decide_True|by rewrite decide_False].
Qed.

Lemma length_markerLines content :
  length (markerLines content) = count_marker_lines (split_lf content).
Proof. apply (length_markerLines_from 0). Qed.

End Agreement.

(** X13: on a file whose lines end with line feeds only (no carriage
    return, line separator or paragraph separator), the scan and the
    patcher agree: the number of lines that [scanMarkers] reports is the
    number of matches of the marker pattern that [loadAndPatch] counts. *)
Theorem scan_agrees_with_pattern (readFile : str → completion str)
    (filePath content : str) (r : Random.source) :
  readFile filePath = Normal content → lf_only content →
  ∃ locations,
    scanMarkers readFile filePath r
    = (Normal (countMarkers content, locations), r) ∧
    length locations = countMarkers content.
Proof.
  intros Hread Honly.
  assert (length (markerLines content) = countMarkers content) as Hsame.
  { rewrite length_markerLines, countMarkers_markers.
    symmetry. apply (segments_marker_lines 0 None); [|done].
    apply pieces_segments. }
  exists (markerLines content). split; [|done].
  unfold scanMarkers, try_catch, mbind, M_bind. rewrite Hread.
  by rewrite <- Hsame.
Qed.

Lemma scan_agrees_with_pattern_witness :
  ∃ locations,
    scanMarkers (one_file docA) (lit "main.ts") (constant_source 0)
    = (Normal (countMarkers docA, locations), constant_source 0) ∧
    length locations = 2.
Proof.
  destruct (scan_agrees_with_pattern (one_file docA) (lit "main.ts") docA
              (constant_source 0)) as (locations & Hscan & Hlen).
  - reflexivity.
  - unfold lf_only. apply (bool_decide_unpack _). by vm_compute.
  - exists locations. split; [exact Hscan|]. rewrite Hlen. by vm_compute.
Defined.

(** After a carriage return the pattern finds a marker that the scan does
    not see. *)
Example scan_misses_after_CR :
  countMarkers after_CR = 1 ∧ markerLines after_CR = [].
Proof. by vm_compute. Qed.

(** ** The orders that the shuffle can give *)

Section Orders.

Context {T : Type}.
Implicit Types shuffled target : list T.

Lemma pick_S r n k : pick r n (S k) = pick (skip_numerators 1 r) n k.
Proof. unfold pick. by rewrite skip_numerators_S. Qed.

Lemma shuffle_draws_S r i :
  shuffle_draws r (S i)
  = pick r (S i + 1) 0 :: shuffle_draws (skip_numerators 1 r) i.
Proof.
  unfold shuffle_draws. rewrite <- cons_seq, <- fmap_S_seq.
  rewrite fmap_cons. f_equal.
  rewrite <- list_fmap_compose. apply list_fmap_ext. intros _ k _.
  simpl. by rewrite pick_S.
Qed.

(** The loop of [shuffleArray] is the run of the exchanges on its draws. *)
Lemma shuffle_loop_draws i shuffled r :
  shuffle_loop i shuffled r
  = (Normal (exchanges i (shuffle_draws r i) shuffled), skip_numerators i r).
Proof.
  revert shuffled r. induction i as [|i IH]; intros shuffled r.
  - by rewrite skip_numerators_0.
  - rewrite shuffle_loop_S.
    erewrite bind_normal by apply random_floor_spec.
    by rewrite IH, shuffle_draws_S, <- skip_numerators_S.
Qed.

Lemma numerator_for_spec n j r k :
  (N.of_nat n ≤ 2 ^ 53)%N → j < n →
  Random.numerators r (Random.numerators_read r + k) = numerator_for n j →
  pick r n k = j.
Proof.
  intros Hn Hj Hm. unfold pick, Random.next_floor, skip_numerators.
  cbn [fst Random.numerators Random.numerators_read]. rewrite Hm.
  unfold numerator_for.
  assert (HJ : (N.of_nat j + 1 ≤ N.of_nat n)%N) by lia.
  set (P := (2 ^ 53)%N) in *. set (b := N.of_nat n) in *.
  set (J := N.of_nat j) in *.
  assert (HP : (0 < P)%N) by done.
  pose proof (N.div_mod (J * P + b - 1) b ltac:(lia)) as Hdiv.
  pose proof (N.mod_lt (J * P + b - 1) b ltac:(lia)) as Hmod.
  set (m := ((J * P + b - 1) `div` b)%N) in *.
  set (rem := ((J * P + b - 1) `mod` b)%N) in *.
  clearbody m rem P.
  assert (Hlow : (J * P ≤ m * b)%N) by nia.
  assert (Hhigh : (m * b < J * P + P)%N) by nia.
  assert (Hsmall : (m < P)%N) by nia.
  rewrite N.mod_small by done.
  rewrite <- (N.div_unique (m * b) P J (m * b - J * P)); [|lia|lia].
  unfold J. lia.
Qed.

(** Every order that keeps the cells after [i] is reached by exchanges from
    the cell [i] down. *)
Lemma exchanges_reach i shuffled target :
  i < length shuffled → target ≡ₚ shuffled →
  drop (S i) target = drop (S i) shuffled →
  ∃ js, length js = i ∧
        (∀ k j, js !! k = Some j → j ≤ i - k) ∧
        exchanges i js shuffled = target.
Proof.
  revert shuffled. induction i as [|i IH]; intros shuffled Hi Hperm Hdrop.
  - exists []. split; [done|]. split; [done|]. simpl.
    rewrite <- (take_drop 1 target), <- (take_drop 1 shuffled) in Hperm.
    rewrite Hdrop in Hperm. apply Permutation_app_inv_r in Hperm.
    rewrite <- (take_drop 1 target), <- (take_drop 1 shuffled), Hdrop.
    f_equal. symmetry.
    pose proof (Permutation_length Hperm) as Hlen.
    destruct shuffled as [|b shuffled]; [simpl in Hi; lia|].
    destruct target as [|a target]; [done|]. simpl in *.
    by apply Permutation_singleton_l in Hperm.
  - pose proof (Permutation_length Hperm) as Hlen.
    destruct (lookup_lt_is_Some_2 target (S i)) as [x Hx]; [lia|].
    destruct (lookup_lt_is_Some_2 shuffled (S i)) as [temp Htemp]; [lia|].
    assert (Hprefix : take (S (S i)) target ≡ₚ take (S (S i)) shuffled).
    { apply (Permutation_app_inv_r (drop (S (S i)) shuffled)).
      rewrite take_drop, <- Hdrop, take_drop. done. }
    assert (Hin : x ∈ take (S (S i)) shuffled).
    { rewrite <- Hprefix. apply list_elem_of_lookup. exists (S i).
      apply lookup_take_Some. split; [done|lia]. }
    apply list_elem_of_lookup in Hin as [j Hj].
    apply lookup_take_Some in Hj as [Hj Hjlt].
    set (shuffled' := exchange shuffled (S i) j).
    assert (Hex : shuffled' = <[j := temp]> (<[S i := x]> shuffled)).
    { unfold shuffled', exchange. by rewrite Htemp, Hj. }
    assert (Hcell : shuffled' !! S i = Some x).
    { rewrite Hex. destruct (decide (j = S i)) as [->|Hne].
      - rewrite list_lookup_insert_eq by (rewrite length_insert; lia).
        congruence.
      - rewrite list_lookup_insert_ne by done.
        by rewrite list_lookup_insert_eq by lia. }
    assert (Hrest : drop (S (S i)) shuffled' = drop (S (S i)) shuffled).
    { rewrite Hex, !drop_insert_lt by lia. done. }
    destruct (IH shuffled') as (js & Hjs & Hbound & Hrun).
    + unfold shuffled'. rewrite (Permutation_length
                                   (exchange_Permutation shuffled (S i) j)).
      lia.
    + etrans; [exact Hperm|]. symmetry. apply exchange_Permutation.
    + rewrite (drop_S _ _ _ Hx), (drop_S _ _ _ Hcell), Hrest. by rewrite Hdrop.
    + exists (j :: js). split; [simpl; by rewrite Hjs|]. split.
      * intros [|k] j' Hk; simpl in Hk.
        -- inversion Hk; subst. lia.
        -- apply Hbound in Hk. simpl. lia.
      * exact Hrun.
Qed.

(** The draws of the loop are those asked for when the numerators to come
    are the numerators for them. *)
Lemma shuffle_draws_numerators r i js :
  (N.of_nat (S i) ≤ 2 ^ 53)%N → length js = i →
  (∀ k j, js !! k = Some j → j ≤ i - k) →
  (∀ k j, js !! k = Some j →
     Random.numerators r (Random.numerators_read r + k)
     = numerator_for (i - k + 1) j) →
  shuffle_draws r i = js.
Proof.
  intros Hi Hlen Hbound Hnum. apply list_eq. intros k.
  unfold shuffle_draws. rewrite list_lookup_fmap.
  destruct (js !! k) as [j|] eqn:Hj.
  - pose proof (lookup_lt_Some _ _ _ Hj) as Hk.
    rewrite (proj2 (lookup_seq 0 i k k)) by (split; [done|lia]).
    simpl. f_equal. apply numerator_for_spec.
    + lia.
    + apply Hbound in Hj. lia.
    + by apply Hnum.
  - apply lookup_ge_None in Hj.
    rewrite lookup_ge_None_2 by (rewrite length_seq; lia). done.
Qed.

(** A source that gives the draws asked for. *)
Lemma shuffle_draws_source i js :
  (N.of_nat (S i) ≤ 2 ^ 53)%N → length js = i →
  (∀ k j, js !! k = Some j → j ≤ i - k) →
  shuffle_draws
    (source_of (imap (λ k j, numerator_for (i - k + 1) j) js)) i = js.
Proof.
  intros Hi Hlen Hbound. apply shuffle_draws_numerators; [done..|].
  intros k j Hj. simpl. by rewrite list_lookup_imap, Hj.
Qed.

End Orders.

(** X14: [shuffleArray] can return every order of its argument (an array
    has fewer than 2^53 elements): for every permutation of the array there
    are values of [Math.random] with which the shuffle returns that
    permutation, after one draw for every cell but the first. *)
Theorem shuffle_reaches_every_order {T : Type} (array target : list T) :
  target ≡ₚ array → (N.of_nat (length array) ≤ 2 ^ 53)%N →
  ∃ r, shuffleArray array r
       = (Normal target, skip_numerators (length array - 1) r).
Proof.
  intros Hperm Hsize. unfold shuffleArray.
  destruct array as [|a array].
  - apply Permutation_nil_r in Hperm as ->.
    exists (source_of []). by rewrite shuffle_loop_draws.
  - set (i := length (a :: array) - 1).
    destruct (exchanges_reach i (a :: array) target)
      as (js & Hjs & Hbound & Hrun).
    + unfold i. simpl. lia.
    + done.
    + rewrite !drop_ge; [done|unfold i; simpl; lia|].
      rewrite (Permutation_length Hperm). unfold i. simpl. lia.
    + exists (source_of (imap (λ k j, numerator_for (i - k + 1) j) js)).
      rewrite shuffle_loop_draws, shuffle_draws_source; [by rewrite Hrun| |done|done].
      unfold i. simpl length in *. lia.
Qed.

Lemma shuffle_reaches_every_order_witness :
  ∃ r, shuffleArray [lit "A();"; lit "B();"; lit "C();"] r
       = (Normal [lit "C();"; lit "A();"; lit "B();"], skip_numerators 2 r).
Proof.
  apply (shuffle_reaches_every_order
           [lit "A();"; lit "B();"; lit "C();"]
           [lit "C();"; lit "A();"; lit "B();"]).
  - etrans; [apply Permutation_swap|]. apply Permutation_skip.
    apply Permutation_swap.
  - simpl. lia.
Defined.

(** ** Decoys in the place of the real fragments *)

Section Dropped.

Context {Value : Type}.
Variable readFile : str → completion str.

Lemma live_prefix_app (pre post : list str) :
  Forall (λ p, truthy p = true) pre →
  live_prefix (pre ++ post) = pre ++ live_prefix post.
Proof.
  induction 1 as [|p pre Hp _ IH]; [done|]. simpl. by rewrite Hp, IH.
Qed.

Lemma pick_source_after skip ms n k :
  k < skip → pick (source_after skip ms) n k = 0.
Proof.
  intros Hk. unfold pick, Random.next_floor, skip_numerators, source_after.
  cbn [fst Random.numerators Random.numerators_read].
  by rewrite decide_True by lia.
Qed.

(** The decoys of a call come from its own draws. *)
Lemma decoys_source_after n ms ms' :
  decoys (source_after (1 + n) ms) n = decoys (source_after (1 + n) ms') n.
Proof.
  unfold decoys, templates_of, drawn, picks.
  rewrite !pick_source_after by lia.
  change (bytes_at (source_after (1 + n) ms))
    with (bytes_at (source_after (1 + n) ms')).
  apply list_eq. intros k. rewrite !list_lookup_fmap.
  destruct (seq 0 n !! k) as [k'|] eqn:Hk; [|done].
  apply lookup_seq in Hk as [-> Hk]. simpl. do 2 f_equal.
  by rewrite <- !pick_S, !pick_source_after by lia.
Qed.

Lemma after_generate_source_after n ms k :
  Random.numerators (after_generate n (source_after (1 + n) ms))
    (Random.numerators_read (after_generate n (source_after (1 + n) ms)) + k)
  = default 0%N (ms !! k).
Proof.
  unfold after_generate, source_after.
  cbn [Random.numerators Random.numerators_read].
  rewrite decide_False by lia. do 2 f_equal. lia.
Qed.

End Dropped.

(** X15: with [randomizeOrder] and [addFakePatches] both set, the shuffle
    decides which fragments of the plan are written, and the real
    fragments can all be lost: on every document with markers there are
    random values with which [loadAndPatch] reports no error and as many
    fragments applied as there are markers, while every marker has
    received a decoy and none of the real fragments has been written. *)
Theorem shuffle_can_drop_real_fragments {Value : Type}
    (readFile : str → completion str) (filePath : str) (config : PatchConfig)
    (content : str) :
  readFile filePath = Normal content →
  countMarkers content ≠ 0 →
  enabled (addFakePatches config) = true →
  enabled (randomizeOrder config) = true →
  (N.of_nat (length (patches config) + countMarkers content) ≤ 2 ^ 53)%N →
  ∃ r (res : PatchResult (Value := Value)) r',
    loadAndPatch readFile filePath config r = (Normal res, r') ∧
    errors res = Some [] ∧
    patchesApplied res = countMarkers content ∧
    patchedFile res
    = fill (decoys r (countMarkers content)) 0 (pieces content).
Proof.
  intros Hread Hcount Hfake Hshuffle Hsize.
  set (n := countMarkers content) in *.
  set (fakes := decoys (source_after (1 + n) []) n).
  set (combined := patches config ++ fakes).
  assert (Hlen : length combined = length (patches config) + n).
  { unfold combined, fakes. by rewrite length_app, length_decoys. }
  destruct (exchanges_reach (length combined - 1) combined
              (fakes ++ patches config))
    as (js & Hjs & Hbound & Hrun).
  { lia. }
  { apply Permutation_app_comm. }
  { rewrite !drop_ge; [done|lia|]. rewrite length_app. unfold fakes.
    rewrite length_decoys. lia. }
  set (ms := imap (λ k j, numerator_for (length combined - 1 - k + 1) j) js).
  set (r := source_after (1 + n) ms).
  assert (Hfakes : decoys r n = fakes) by apply decoys_source_after.
  destruct (loadAndPatch_markers (Value := Value) readFile filePath config r
              content Hread Hcount)
    as (combined' & r1 & plan & r2 & H1 & H2 & H3).
  rewrite preparePatches_spec, Hfake in H1. fold n in H1.
  rewrite Hfakes in H1. inversion H1; subst combined' r1. clear H1.
  unfold orderPatches in H2. rewrite Hshuffle in H2.
  unfold shuffleArray in H2. rewrite shuffle_loop_draws in H2.
  fold combined in H2.
  rewrite (shuffle_draws_numerators _ _ js) in H2; [|lia|done|done|].
  2:{ intros k j Hj. unfold r. rewrite after_generate_source_after.
      unfold ms. by rewrite list_lookup_imap, Hj. }
  rewrite Hrun in H2. inversion H2; subst plan r2.
  eexists r, (patched_outcome content (fakes ++ patches config)), _.
  split; [exact H3|]. split; [done|].
  simpl. rewrite applyPatches_spec. simpl.
  rewrite live_prefix_app by apply decoys_truthy. fold n.
  split.
  - rewrite length_app. unfold fakes. rewrite length_decoys. lia.
  - rewrite Hfakes. apply fill_ext. intros k Hk.
    rewrite <- countMarkers_markers in Hk. fold n in Hk.
    apply lookup_app_l. unfold fakes. rewrite length_decoys. lia.
Qed.

Lemma shuffle_can_drop_real_fragments_witness :
  ∃ r (res : PatchResult (Value := str)) r',
    loadAndPatch (one_file two_markers) (lit "main.ts")
      {| patches := [lit "X();"]; randomizeOrder := Some true;
         addFakePatches := Some true; preserveOriginal := None |} r
    = (Normal res, r') ∧
    errors res = Some [] ∧
    patchesApplied res = countMarkers two_markers ∧
    patchedFile res
    = fill (decoys r (countMarkers two_markers)) 0 (pieces two_markers).
Proof.
  apply (shuffle_can_drop_real_fragments (Value := str)
           (one_file two_markers) (lit "main.ts")
           {| patches := [lit "X();"]; randomizeOrder := Some true;
              addFakePatches := Some true; preserveOriginal := None |}
           two_markers).
  - reflexivity.
  - by vm_compute.
  - reflexivity.
  - reflexivity.
  - by vm_compute.
Defined.

(** ** The markers left in the patched text *)

Section Remaining.

Lemma trimStart_app (x t : str) :
  trimStart (x ++ t)
  = match trimStart x with [] => trimStart t | _ => trimStart x ++ t end.
Proof.
  induction x as [|c x IH]; simpl; [by destruct (trimStart t)|].
  by destruct (is_space c).
Qed.

Lemma trimEnd_spaces (y t : str) :
  Forall (λ c, is_space c = true) t → trimEnd (y ++ t) = trimEnd y.
Proof.
  intros Ht. unfold trimEnd.
  by rewrite reverse_app, trimStart_spaces by by apply Forall_reverse.
Qed.

Lemma trim_spaces_l (w x : str) :
  Forall (λ c, is_space c = true) w → trim (w ++ x) = trim x.
Proof. intros Hw. unfold trim. by rewrite trimStart_spaces. Qed.

Lemma trim_spaces_r (x t : str) :
  Forall (λ c, is_space c = true) t → trim (x ++ t) = trim x.
Proof.
  intros Ht. unfold trim. rewrite trimStart_app.
  destruct (trimStart x) as [|c y] eqn:Hx.
  - rewrite <- (app_nil_r t), trimStart_spaces by done. done.
  - by rewrite trimEnd_spaces.
Qed.

(** A blank line is made of spaces. *)
Lemma blank_spaces (l : str) :
  truthy (trim l) = false → Forall (λ c, is_space c = true) l.
Proof.
  intros Hblank. destruct (trim_cut l) as (w & t & Hl & Hw & Ht).
  destruct (trim l); [|done]. rewrite Hl. by apply Forall_app.
Qed.

Lemma count_marker_lines_app lines1 lines2 :
  count_marker_lines (lines1 ++ lines2)
  = count_marker_lines lines1 + count_marker_lines lines2.
Proof. unfold count_marker_lines. by rewrite filter_app, length_app. Qed.

(** The lines of two texts put together: the last line of the first text
    and the first line of the second are one line. *)
Lemma split_lf_app (a b : str) lb lsb :
  split_lf b = lb :: lsb →
  ∃ init last, split_lf a = init ++ [last] ∧
               split_lf (a ++ b) = init ++ (last ++ lb) :: lsb.
Proof.
  intros Hb. induction a as [|c a (init & last & Ha & Hab)].
  - by exists [], [].
  - change ((c :: a) ++ b) with (c :: a ++ b).
    destruct (decide (c = LF)) as [->|Hc].
    + exists ([] :: init), last. by rewrite !split_lf_LF, Ha, Hab.
    + destruct (split_lf_other c a Hc) as (l & ls & Hs & ->).
      destruct (split_lf_other c (a ++ b) Hc) as (l' & ls' & Hs' & ->).
      rewrite Ha in Hs. rewrite Hab in Hs'.
      destruct init as [|l0 init]; simpl in Hs, Hs'.
      * inversion Hs; subst l ls. inversion Hs'; subst l' ls'.
        by exists [], (c :: last).
      * inversion Hs; subst l ls. inversion Hs'; subst l' ls'.
        by exists ((c :: l0) :: init), last.
Qed.

(** The marker lines of two texts put together, when the second starts
    with a blank line. *)
Lemma count_marker_lines_join (a b : str) lb lsb :
  split_lf b = lb :: lsb → Forall (λ c, is_space c = true) lb →
  count_marker_lines (split_lf (a ++ b))
  = count_marker_lines (split_lf a) + count_marker_lines lsb.
Proof.
  intros Hb Hlb. destruct (split_lf_app a b lb lsb Hb) as (init & last & -> & ->).
  rewrite !count_marker_lines_app, !count_marker_lines_cons.
  rewrite trim_spaces_r by done. unfold count_marker_lines at 4. simpl. lia.
Qed.

Lemma split_lf_lines (s : str) : Forall (Forall (λ c, c ≠ LF)) (split_lf s).
Proof.
  induction s as [|c s IH]; [by repeat constructor|].
  destruct (decide (c = LF)) as [->|Hc].
  - rewrite split_lf_LF. by constructor.
  - destruct (split_lf_other c s Hc) as (l & ls & Hs & ->).
    rewrite Hs in IH. apply Forall_cons in IH as [Hl Hls].
    constructor; [by constructor|done].
Qed.

(** The marker lines of lines put together again. *)
Lemma count_marker_lines_lines (f : str → str) (lines : list str) :
  lines ≠ [] →
  count_marker_lines (split_lf (join_lf (f <$> lines)))
  = sum_list ((λ line, count_marker_lines (split_lf (f line))) <$> lines).
Proof.
  induction lines as [|l lines IH]; [done|]. intros _.
  destruct lines as [|l' lines]; [simpl; lia|].
  rewrite fmap_cons. rewrite join_lf_cons by done.
  rewrite (count_marker_lines_join _ _ [] (split_lf (join_lf (f <$> l' :: lines))));
    [|by rewrite split_lf_LF|done].
  rewrite IH by done. done.
Qed.

(** Indenting a fragment does not change the number of its marker
    lines. *)
Lemma count_marker_lines_indentPatch (indent p : str) :
  Forall (λ c, is_space c = true) indent →
  count_marker_lines (split_lf (indentPatch indent p))
  = count_marker_lines (split_lf p).
Proof.
  intros Hindent. unfold indentPatch.
  rewrite count_marker_lines_lines by apply split_lf_nonempty.
  pose proof (split_lf_lines p) as Hlines.
  induction Hlines as [|l lines Hl _ IH]; [done|].
  rewrite fmap_cons, count_marker_lines_cons. simpl sum_list. rewrite IH.
  f_equal. destruct (truthy (trim l)).
  - rewrite count_marker_lines_spaces by done.
    rewrite split_lf_one_line by done. by rewrite count_marker_lines_cons.
  - rewrite split_lf_one_line by done. by rewrite count_marker_lines_cons.
Qed.

End Remaining.

Section Left.

Variable frags : list str.

Lemma join_lf_head (x : str) (xs : list str) :
  join_lf (x :: xs)
  = x ++ match xs with [] => [] | _ :: _ => LF :: join_lf xs end.
Proof. destruct xs; [by rewrite app_nil_r|done]. Qed.

Lemma at_line_start_other c :
  (is_line_terminator c = true → c = LF) → c ≠ LF →
  at_line_start (Some c) = false.
Proof.
  intros Hc Hne. simpl. destruct (is_line_terminator c); [|done].
  by destruct Hne, Hc.
Qed.

(** What is written after the end of a line starts with a blank line. *)
Lemma fill_first_line_blank pos prev s ps i :
  segments pos prev s ps → lf_only s →
  s = [] ∨ (∃ s', s = LF :: s') →
  ∃ l ls, split_lf (fill frags i ps) = l :: ls ∧
          Forall (λ c, is_space c = true) l.
Proof.
  intros Hseg. revert i.
  induction Hseg as [pos prev
                    |pos prev c s ps Hre Hseg IH
                    |pos prev indent trailing rest ps Hstart Hindent Htrailing
                       Hend Hseg IH]; intros i Honly Hs.
  - by exists [], [].
  - destruct Hs as [Hs|[s' Hs]]; [done|]. inversion Hs; subst c s'.
    exists [], (split_lf (fill frags i ps)). split; [|done].
    apply split_lf_LF.
  - apply Forall_app in Honly as [_ Honly].
    pose proof (at_line_end_LF rest Honly Hend) as Hrest.
    destruct (IH (S i) Honly Hrest) as (l' & ls' & HF & Hl').
    destruct Hs as [Hs|[s' Hs]]; [by destruct indent|].
    destruct indent as [|c indent']; [done|].
    inversion Hs as [[Hc Hs']]. subst c. clear Hs Hs'.
    change (fill frags i
              (Hit pos (LF :: indent')
                 ((LF :: indent') ++ CAR_MARKER ++ trailing) :: ps))
      with (match frags !! i with
            | Some p => indentPatch (LF :: indent') p
            | None => (LF :: indent') ++ CAR_MARKER ++ trailing
            end ++ fill frags (S i) ps).
    destruct (frags !! i) as [p|].
    + unfold indentPatch. pose proof (split_lf_lines p) as Hlines.
      destruct (split_lf p) as [|l1 lines] eqn:Hp;
        [by destruct (split_lf_nonempty p)|].
      apply Forall_cons in Hlines as [Hl1 _].
      rewrite fmap_cons, join_lf_head.
      destruct (truthy (trim l1)) eqn:Hblank.
      * eexists [], _. split; [|done]. apply split_lf_LF.
      * rewrite <- app_assoc.
        match goal with
        | |- context [split_lf (l1 ++ ?X)] =>
            destruct (split_lf_prefix l1 X Hl1) as (l & ls & Hsplit & ->)
        end.
        exists (l1 ++ l), ls. split; [done|].
        apply Forall_app. split; [by apply blank_spaces|].
        destruct lines as [|l2 lines].
        -- simpl in Hsplit. rewrite HF in Hsplit. by inversion Hsplit; subst.
        -- simpl in Hsplit. by inversion Hsplit; subst.
    + eexists [], _. split; [|done]. apply split_lf_LF.
Qed.

(** Inside a line, what is written up to the end of the line is the
    text. *)
Lemma fill_first_line pos prev s ps i :
  segments pos prev s ps → lf_only s → at_line_start prev = false →
  head (split_lf (fill frags i ps)) = head (split_lf s).
Proof.
  intros Hseg. revert i.
  induction Hseg as [pos prev
                    |pos prev c s ps Hre Hseg IH
                    |pos prev indent trailing rest ps Hstart Hindent Htrailing
                       Hend Hseg IH]; intros i Honly Hprev.
  - done.
  - apply Forall_cons in Honly as [Hc Honly].
    change (fill frags i (Lit c :: ps)) with (c :: fill frags i ps).
    destruct (decide (c = LF)) as [->|Hne]; [by rewrite !split_lf_LF|].
    destruct (split_lf_other c (fill frags i ps) Hne) as (l & ls & Hl & ->).
    destruct (split_lf_other c s Hne) as (l' & ls' & Hl' & ->).
    specialize (IH i Honly (at_line_start_other c Hc Hne)).
    rewrite Hl, Hl' in IH. simpl in *. by inversion IH.
  - by rewrite Hstart in Hprev.
Qed.

(** The marker lines of the text written are the markers that no fragment
    was there for. *)
Lemma fill_marker_lines pos prev s ps i :
  segments pos prev s ps → lf_only s →
  Forall (λ p, count_marker_lines (split_lf p) = 0) frags →
  count_marker_lines
    (if at_line_start prev then split_lf (fill frags i ps)
     else tail (split_lf (fill frags i ps)))
  = length (markers ps) - (length frags - i).
Proof.
  intros Hseg. revert i.
  induction Hseg as [pos prev
                    |pos prev c s ps Hre Hseg IH
                    |pos prev indent trailing rest ps Hstart Hindent Htrailing
                       Hend Hseg IH]; intros i Honly Hfrags.
  - by destruct (at_line_start prev).
  - apply Forall_cons in Honly as [Hc Honly].
    pose proof (IH i Honly Hfrags) as Hrest.
    change (markers (Lit c :: ps)) with (markers ps). rewrite <- Hrest.
    change (fill frags i (Lit c :: ps)) with (c :: fill frags i ps).
    destruct (decide (c = LF)) as [->|Hne].
    + rewrite split_lf_LF. change (at_line_start (Some LF)) with true.
      destruct (at_line_start prev); [|done].
      by rewrite count_marker_lines_blank.
    + rewrite (at_line_start_other c Hc Hne).
      pose proof (fill_first_line _ _ _ _ i Hseg Honly
                    (at_line_start_other c Hc Hne)) as Hfirst.
      destruct (split_lf_other c (fill frags i ps) Hne) as (l & ls & Hl & ->).
      rewrite Hl. simpl tail.
      unfold re_at in Hre. destruct (at_line_start prev); [|done].
      rewrite count_marker_lines_cons, decide_False; [done|].
      rewrite Hl in Hfirst. simpl in Hfirst.
      destruct (split_lf s) as [|l' ls'] eqn:Hs; [done|].
      inversion Hfirst; subst l'. by eapply no_match_no_marker_line.
  - apply Forall_app in Honly as [_ Honly].
    pose proof (at_line_end_LF rest Honly Hend) as Hrest.
    rewrite Hstart.
    change (markers (Hit pos indent (indent ++ CAR_MARKER ++ trailing) :: ps))
      with ((pos, indent, indent ++ CAR_MARKER ++ trailing) :: markers ps).
    change (fill frags i
              (Hit pos indent (indent ++ CAR_MARKER ++ trailing) :: ps))
      with (match frags !! i with
            | Some p => indentPatch indent p
            | None => indent ++ CAR_MARKER ++ trailing
            end ++ fill frags (S i) ps).
    destruct (frags !! i) as [p|] eqn:Hp.
    + destruct (fill_first_line_blank _ _ _ _ (S i) Hseg Honly Hrest)
        as (l & ls & HF & Hl).
      rewrite (count_marker_lines_join _ _ l ls HF Hl).
      rewrite count_marker_lines_indentPatch by done.
      rewrite (Forall_lookup_1 _ _ _ _ Hfrags Hp).
      specialize (IH (S i) Honly Hfrags). rewrite HF in IH.
      assert (count_marker_lines ls
              = length (markers ps) - (length frags - S i)) as ->.
      { rewrite <- IH.
        match goal with |- context [if ?b then _ else _] => destruct b end;
          [|done].
        by rewrite count_marker_lines_blank. }
      apply lookup_lt_Some in Hp. simpl. lia.
    + apply lookup_ge_None in Hp.
      rewrite fill_past by lia. rewrite (segments_render _ _ _ _ Hseg).
      rewrite count_marker_lines_match by done.
      pose proof (segments_marker_lines _ _ _ _ Hseg Honly) as Hcount.
      rewrite count_marker_lines_rest in Hcount by done.
      rewrite <- Hcount. simpl. lia.
Qed.

Lemma Forall_split_lf (P : N → Prop) (s : str) :
  Forall P s → Forall (Forall P) (split_lf s).
Proof.
  induction 1 as [|c s Hc _ IH]; [by repeat constructor|].
  destruct (decide (c = LF)) as [->|Hne].
  - rewrite split_lf_LF. by constructor.
  - destruct (split_lf_other c s Hne) as (l & ls & Hs & ->).
    rewrite Hs in IH. apply Forall_cons in IH as [Hl Hls].
    constructor; [by constructor|done].
Qed.

Lemma Forall_join_lf (P : N → Prop) (lines : list str) :
  P LF → Forall (Forall P) lines → Forall P (join_lf lines).
Proof.
  intros HLF. induction 1 as [|l lines Hl _ IH]; [done|].
  rewrite join_lf_head. apply Forall_app. split; [done|].
  destruct lines; [done|]. by constructor.
Qed.

Lemma lf_only_indentPatch (indent p : str) :
  lf_only indent → lf_only p → lf_only (indentPatch indent p).
Proof.
  intros Hindent Hp. unfold lf_only, indentPatch.
  apply Forall_join_lf; [done|].
  apply Forall_fmap. eapply Forall_impl; [by apply Forall_split_lf|].
  intros l Hl. simpl. destruct (truthy (trim l)); [|done].
  by apply Forall_app.
Qed.

Lemma lf_only_fill pos prev s ps i :
  segments pos prev s ps → lf_only s → Forall lf_only frags →
  lf_only (fill frags i ps).
Proof.
  intros Hseg. revert i.
  induction Hseg as [pos prev
                    |pos prev c s ps Hre Hseg IH
                    |pos prev indent trailing rest ps Hstart Hindent Htrailing
                       Hend Hseg IH]; intros i Honly Hfrags.
  - constructor.
  - apply Forall_cons in Honly as [Hc Honly].
    constructor; [done|]. by apply IH.
  - apply Forall_app in Honly as [Hm Honly].
    change (fill frags i
              (Hit pos indent (indent ++ CAR_MARKER ++ trailing) :: ps))
      with (match frags !! i with
            | Some p => indentPatch indent p
            | None => indent ++ CAR_MARKER ++ trailing
            end ++ fill frags (S i) ps).
    apply Forall_app. split; [|by apply IH].
    destruct (frags !! i) as [p|] eqn:Hp; [|done].
    apply lf_only_indentPatch.
    + by apply Forall_app in Hm as [Hm _].
    + by eapply Forall_lookup_1.
Qed.

End Left.

Section LeftAfterPatch.

Lemma plain_line_marker_free (p : str) : plain_line p → marker_free p.
Proof.
  intros (Hline & Htrim & Hne & Hmarker). split; [done|]. split.
  - eapply Forall_impl; [exact Hline|]. intros c Hc Hc'. congruence.
  - rewrite split_lf_one_line by by apply no_terminator_no_LF.
    rewrite count_marker_lines_cons, Htrim. by rewrite decide_False.
Qed.

(** The matches of the pattern in the text written by the apply stage are
    the markers that no fragment was there for. *)
Lemma applyPatches_markers_left (content : str) (plan : list str) :
  lf_only content → Forall marker_free plan →
  countMarkers (applyPatches content plan).1
  = countMarkers content - length plan.
Proof.
  intros Honly Hplan. rewrite applyPatches_spec. simpl.
  rewrite live_prefix_all; last first.
  { eapply Forall_impl; [exact Hplan|]. intros p (Hne & _). by destruct p. }
  pose proof (pieces_segments content) as Hseg.
  rewrite (countMarkers_markers (fill plan 0 (pieces content))).
  rewrite (segments_marker_lines 0 None _ _ (pieces_segments _)); last first.
  { eapply lf_only_fill; [exact Hseg|done|].
    eapply Forall_impl; [exact Hplan|]. by intros p (_ & Hp & _). }
  rewrite (fill_marker_lines plan 0 None content (pieces content) 0 Hseg Honly);
    last first.
  { eapply Forall_impl; [exact Hplan|]. by intros p (_ & _ & Hp). }
  rewrite countMarkers_markers. lia.
Qed.

End LeftAfterPatch.

(** X16: on a file whose lines end with line feeds only, and with real
    fragments that bring no marker (none is empty, none has a line that is
    the marker token, all end their lines with line feeds only),
    the patched text that [loadAndPatch] returns holds exactly the markers
    that were left without a fragment: the pattern has as many matches in
    it as the original text had markers, less [patchesApplied].  With
    [addFakePatches] set no marker is left, so that a second run on the
    patched text finds nothing to patch. *)
Theorem markers_left_after_patch {Value : Type}
    (readFile : str → completion str) (filePath : str) (config : PatchConfig)
    (content : str) (r : Random.source) :
  readFile filePath = Normal content → lf_only content →
  Forall marker_free (patches config) →
  ∃ (res : PatchResult (Value := Value)) r',
    loadAndPatch readFile filePath config r = (Normal res, r') ∧
    countMarkers (patchedFile res)
    = countMarkers content - patchesApplied res ∧
    (enabled (addFakePatches config) = true →
     countMarkers (patchedFile res) = 0).
Proof.
  intros Hread Honly Hreal.
  destruct (decide (countMarkers content = 0)) as [Hcount|Hcount].
  { eexists _, _. split; [by apply loadAndPatch_no_markers|].
    simpl. split; [lia|done]. }
  destruct (loadAndPatch_plan (Value := Value) readFile filePath config r
              content Hread Hcount) as (plan & r' & Hload & Hperm & _).
  assert (Hplan : Forall marker_free plan).
  { rewrite Hperm. apply Forall_app. split; [done|].
    destruct (enabled (addFakePatches config)); [|done].
    unfold decoys, drawn. apply Forall_fmap.
    eapply Forall_impl; [apply (Forall_picks_lt _ 5); lia|].
    intros j Hj. simpl. by apply plain_line_marker_free, templates_of_lines. }
  eexists _, r'. split; [exact Hload|]. simpl.
  rewrite applyPatches_markers_left by done.
  rewrite applyPatches_spec. simpl.
  rewrite live_prefix_all; last first.
  { eapply Forall_impl; [exact Hplan|]. intros p (Hne & _). by destruct p. }
  split; [lia|]. intros Hfake.
  apply Permutation_length in Hperm.
  rewrite Hfake, length_app, length_decoys in Hperm. lia.
Qed.

Lemma markers_left_after_patch_witness :
  ∃ (res : PatchResult (Value := str)) r',
    loadAndPatch (one_file two_markers) (lit "main.ts") (sample_config None)
      (constant_source 0) = (Normal res, r') ∧
    countMarkers (patchedFile res) = 1.
Proof.
  destruct (markers_left_after_patch (Value := str) (one_file two_markers)
              (lit "main.ts") (sample_config None) two_markers
              (constant_source 0))
    as (res & r' & Hload & Hleft & _).
  - reflexivity.
  - unfold lf_only. apply (bool_decide_unpack _). by vm_compute.
  - apply Forall_cons. split; [|by apply Forall_nil].
    split; [done|]. split; [|by vm_compute].
    unfold lf_only. apply (bool_decide_unpack _). by vm_compute.
  - exists res, r'. split; [exact Hload|]. rewrite Hleft.
    unfold sample_config in Hload.
    rewrite (loadAndPatch_plain (one_file two_markers) (sample_config None)
               (lit "main.ts") (constant_source 0) eq_refl eq_refl) in Hload.
    inversion Hload. by vm_compute.
Defined.
